(** * todo-app: the Controller of [src/js/todo.js] and of its documented copy

    A shallow embedding of [class Todo] and [class TodoController], and of
    [class TodoView] as far as it builds the rows and reads the form.

    - Todo objects are JavaScript objects: they live in an object store
      ([heap]) and the two arrays of the controller hold references to them,
      so that [forEach ((t) => (t.completed = ...))] is a mutation of shared
      objects and not a copy.
    - [localStorage], [JSON] and the view are the browser's and the page's:
      the storage is one optional string (the value under the key "todos"),
      [JSON.stringify] / [JSON.parse] and the storage quota are the members
      of the class [Platform], and the view is the trace of the calls made on
      it (with the items it was handed, as they were at the call); the rows
      of the two list elements are computed from the last call of
      [displayTodos] and of [displayCompleted] in the trace.
    - An exception leaves the state as it was when it was thrown, which is
      what the monad [M] says. *)

From Stdlib Require Import Ascii DecimalString DecimalZ DecimalPos.
From stdpp Require Import base option numbers strings sets list.

Local Open Scope Z_scope.

(** ** Model: [class Todo] *)

Record Todo := mkTodo {
  id : Z;
  text : string;
  completed : bool;
  priority : string;
  dueDate : string;
}.

#[global] Instance Todo_eq_dec : EqDecision Todo.
Proof. solve_decision. Defined.

(** [t.completed = b] *)
Definition set_completed (b : bool) (t : Todo) : Todo :=
  mkTodo (id t) (text t) b (priority t) (dueDate t).

(** ** The object store, the controller's fields, the browser *)

(** A reference to a Todo object: its index in the store. *)
Abbreviation loc := nat.

(** What the controller does to its collaborators, in the order it does it. *)
Inductive Event :=
| DisplayTodos (todos : list Todo)        (* view.displayTodos(list) *)
| DisplayCompleted (todos : list Todo)    (* view.displayCompleted(list) *)
| BindAddTodo                             (* view.bindAddTodo(handler) *)
| BindToggleCompleted                     (* view.bindToggleCompleted(handler) *)
| SetItem (value : string).               (* localStorage.setItem("todos", value) *)

#[global] Instance Event_eq_dec : EqDecision Event.
Proof. solve_decision. Defined.

Record State := mkState {
  heap : list Todo;             (* the Todo objects, by reference *)
  todoList : list loc;          (* this.todoList *)
  completedList : list loc;     (* this.completedList *)
  storage : option string;      (* localStorage.getItem("todos"); None is null *)
  trace : list Event;           (* calls made so far, oldest first *)
}.

Inductive Exn :=
| SyntaxError          (* JSON.parse on a malformed text *)
| QuotaExceededError.  (* localStorage.setItem over quota *)

(** The parts of the browser the code relies on and the repository does not
    define.  [JSON_parse s = None] when [JSON.parse(s)] throws; a text that
    parses is taken to be an array of Todo records.  [quota v] tells whether
    the storage accepts the value [v]. *)
Class Platform := {
  JSON_stringify : list Todo → string;
  JSON_parse : string → option (list Todo);
  quota : string → bool;
}.

(** What [JSON] promises for plain records: parsing the text of an array
    gives the array back, and the text of an array is never the empty string
    (it starts with a bracket). *)
Class JSONRoundTrip `{Platform} : Prop := {
  parse_stringify ts : JSON_parse (JSON_stringify ts) = Some ts;
  stringify_truthy ts : JSON_stringify ts ≠ "";
}.

(** ** Computations: state, and exceptions that keep the state *)

Definition M (A : Type) : Type := State → (Exn + A) * State.

Definition ret {A} (a : A) : M A := λ s, (inr a, s).

Definition bind {A B} (m : M A) (k : A → M B) : M B :=
  λ s, match m s with
       | (inr a, s') => k a s'
       | (inl e, s') => (inl e, s')
       end.

Definition throw {A} (e : Exn) : M A := λ s, (inl e, s).

Definition gets {A} (f : State → A) : M A := λ s, (inr (f s), s).

Definition modify (f : State → State) : M unit := λ s, (inr (), f s).

Declare Scope js_scope.
Delimit Scope js_scope with js.
Notation "'let*' x ':=' m 'in' k" := (bind m (λ x, k))
  (at level 10, x name, m at level 100, k at level 200) : js_scope.
Notation "m ';;' k" := (bind m (λ _, k))
  (at level 100, k at level 200, right associativity) : js_scope.

(** The state a computation ends in, however it ends. *)
Definition exec {A} (m : M A) (s : State) : State := snd (m s).

(** How a computation ends: [inl e] thrown, [inr a] returned. *)
Definition outcome {A} (m : M A) (s : State) : Exn + A := fst (m s).

(** ** Reading objects *)

(** [t.id === i] for the object behind [l] *)
Definition has_id (h : list Todo) (i : Z) (l : loc) : Prop :=
  id <$> h !! l = Some i.

#[global] Instance has_id_dec h i l : Decision (has_id h i l).
Proof. unfold has_id. apply _. Defined.

(** [t.completed], as a condition *)
Definition is_completed (h : list Todo) (l : loc) : Prop :=
  completed <$> h !! l = Some true.

#[global] Instance is_completed_dec h l : Decision (is_completed h l).
Proof. unfold is_completed. apply _. Defined.

(** The objects behind an array of references, as they are now. *)
Definition values (h : list Todo) (ls : list loc) : list Todo :=
  omap (λ l, h !! l) ls.

(** [array.find(p)]: the first element that satisfies [p], or undefined. *)
Definition find {A} (P : A → Prop) `{∀ x, Decision (P x)} (l : list A)
  : option A := snd <$> list_find P l.

(** [array.forEach((t) => (t.completed = b))] on the store *)
Definition mark_all (b : bool) (ls : list loc) (h : list Todo) : list Todo :=
  foldl (λ h l, alter (set_completed b) l h) h ls.

(** ** The browser's and the view's entry points *)

Section Controller.
Context `{Platform}.
Local Open Scope js_scope.

(** [localStorage.getItem("todos")] *)
Definition localStorage_getItem : M (option string) := gets storage.

(** [localStorage.setItem("todos", v)]: the call is made; the value is
    stored unless the quota refuses it, and then the call throws. *)
Definition localStorage_setItem (v : string) : M unit :=
  λ s, (if quota v then inr () else inl QuotaExceededError,
        mkState (heap s) (todoList s) (completedList s)
                (if quota v then Some v else storage s)
                (trace s ++ [SetItem v])).

(** [new Todo(...)], and each object [JSON.parse] builds: a fresh object. *)
Definition new_Todo (t : Todo) : M loc :=
  λ s, (inr (length (heap s)),
        mkState (heap s ++ [t]) (todoList s) (completedList s)
                (storage s) (trace s)).

(** [JSON.parse(str)]: throws on a malformed text, or else builds the
    objects of the array, each one fresh, and returns the array. *)
Definition JSON_parse_array (str : string) : M (list loc) :=
  match JSON_parse str with
  | None => throw SyntaxError
  | Some ts =>
      λ s, (inr (seq (length (heap s)) (length ts)),
            mkState (heap s ++ ts) (todoList s) (completedList s)
                    (storage s) (trace s))
  end.

Definition set_todoList (ls : list loc) : M unit :=
  modify (λ s, mkState (heap s) ls (completedList s) (storage s) (trace s)).

Definition set_completedList (ls : list loc) : M unit :=
  modify (λ s, mkState (heap s) (todoList s) ls (storage s) (trace s)).

Definition set_heap (h : list Todo) : M unit :=
  modify (λ s, mkState h (todoList s) (completedList s) (storage s) (trace s)).

Definition emit (e : Event) : M unit :=
  modify (λ s, mkState (heap s) (todoList s) (completedList s) (storage s)
                       (trace s ++ [e])).

(** [this.view.displayTodos(this.todoList)] *)
Definition view_displayTodos : M unit :=
  let* h := gets heap in
  let* ls := gets todoList in
  emit (DisplayTodos (values h ls)).

(** [this.view.displayCompleted(this.completedList)] *)
Definition view_displayCompleted : M unit :=
  let* h := gets heap in
  let* ls := gets completedList in
  emit (DisplayCompleted (values h ls)).

(** [array.push(x)] on [this.todoList] and on [this.completedList] *)
Definition todoList_push (x : loc) : M unit :=
  let* tl := gets todoList in set_todoList (tl ++ [x]).

Definition completedList_push (x : loc) : M unit :=
  let* cl := gets completedList in set_completedList (cl ++ [x]).

(** [this.completedList.forEach((t) => (t.completed = true))], and the
    same on [this.todoList] with false *)
Definition completedList_forEach_set (b : bool) : M unit :=
  let* h := gets heap in
  let* cl := gets completedList in
  set_heap (mark_all b cl h).

Definition todoList_forEach_set (b : bool) : M unit :=
  let* h := gets heap in
  let* tl := gets todoList in
  set_heap (mark_all b tl h).

(** ** Controller: [class TodoController] *)

(** [saveTodos()], todo.js:71-74 *)
Definition saveTodos : M unit :=
  let* h := gets heap in
  let* tl := gets todoList in
  let* cl := gets completedList in
  let todos := values h (tl ++ cl) in
  localStorage_setItem (JSON_stringify todos).

(** [loadTodos()], todo.js:25-34.  [if (storedTodos)] is false for null and
    for the empty string. *)
Definition loadTodos : M unit :=
  let* storedTodos := localStorage_getItem in
  match storedTodos with
  | Some str =>
      if decide (str = "") then ret ()
      else
        let* todos := JSON_parse_array str in
        let* h := gets heap in
        set_todoList (filter (λ todo, ¬ is_completed h todo) todos);;
        set_completedList (filter (λ todo, is_completed h todo) todos);;
        view_displayTodos;;
        view_displayCompleted
  | None => ret ()
  end.

(** [toggleCompleted(id)], todo.js:49-69 *)
Definition toggleCompleted (i : Z) : M unit :=
  let* h := gets heap in
  let* tl := gets todoList in
  match find (has_id h i) tl with
  | Some todo =>
      set_todoList (filter (λ t, ¬ has_id h i t) tl);;
      completedList_push todo;;
      completedList_forEach_set true;;
      view_displayTodos;;
      view_displayCompleted;;
      saveTodos
  | None =>
      let* cl := gets completedList in
      match find (has_id h i) cl with
      | Some completedTodo =>
          set_completedList (filter (λ t, ¬ has_id h i t) cl);;
          todoList_push completedTodo;;
          todoList_forEach_set false;;
          view_displayTodos;;
          view_displayCompleted;;
          saveTodos
      | None => ret ()
      end
  end.

(** [constructor(model, view)], todo.js:14-23.  [this.model] is stored and
    never read. *)
Definition constructor : M unit :=
  set_todoList [];;
  set_completedList [];;
  loadTodos;;
  emit BindAddTodo;;
  emit BindToggleCompleted.

End Controller.

(** [addTodo] differs between the copies of the controller in the id it
    gives the new item. *)

(** src/js/todo.js:36-47 (and the first, undocumented, copy, which leaves
    [priority] and [dueDate] out). *)
Module Js.
Section AddTodo.
Context `{Platform}.
Local Open Scope js_scope.

Definition addTodo (text priority dueDate : string) : M unit :=
  let* tl := gets todoList in
  let* newTodo :=
    new_Todo (mkTodo (Z.of_nat (length tl) + 1) text false priority dueDate) in
  todoList_push newTodo;;
  view_displayTodos;;
  saveTodos.

End AddTodo.
End Js.

(** The documented copy of todo.js, [addTodo] at lines 342-348 of its file. *)
Module Documented.
Section AddTodo.
Context `{Platform}.
Local Open Scope js_scope.

Definition addTodo (text priority dueDate : string) : M unit :=
  let* tl := gets todoList in
  let* cl := gets completedList in
  let nextId := Z.of_nat (length tl) + Z.of_nat (length cl) + 1 in
  let* newTodo := new_Todo (mkTodo nextId text false priority dueDate) in
  todoList_push newTodo;;
  view_displayTodos;;
  saveTodos.

End AddTodo.
End Documented.

(** ** The life of a controller *)

Inductive Copy := SrcJs | DocumentedCopy.

Definition addTodo `{Platform} (c : Copy) : string → string → string → M unit :=
  match c with
  | SrcJs => Js.addTodo
  | DocumentedCopy => Documented.addTodo
  end.

(** A page before its script runs: nothing but what the storage holds. *)
Definition page (stored : option string) : State :=
  mkState [] [] [] stored [].

(** What the user does once the handlers are bound. *)
Inductive Gesture :=
| Add (text priority dueDate : string)
| Toggle (i : Z).

Definition handle `{Platform} (c : Copy) (g : Gesture) : M unit :=
  match g with
  | Add text priority dueDate => addTodo c text priority dueDate
  | Toggle i => toggleCompleted i
  end.

(** An exception thrown inside a handler ends that handler and leaves the
    page running in the state reached. *)
Definition run `{Platform} (c : Copy) (gs : list Gesture) (s : State) : State :=
  foldl (λ s g, exec (handle c g) s) s gs.

(** The states a controller of the given copy goes through: it was
    constructed (the constructor returned) on some page, and has handled any
    number of gestures since. *)
Inductive reachable `{Platform} (c : Copy) : State → Prop :=
| reachable_new stored s :
    constructor (page stored) = (inr (), s) → reachable c s
| reachable_handle g s :
    reachable c s → reachable c (exec (handle c g) s).

(** ** Invariants of the running controller *)

(** Every reference of [ls] is to an object whose [completed] is [b]. *)
Definition all_flagged (b : bool) (h : list Todo) (ls : list loc) : Prop :=
  Forall (λ l, completed <$> h !! l = Some b) ls.

(** The [completed] field agrees with the array that holds the object. *)
Definition consistent (s : State) : Prop :=
  all_flagged false (heap s) (todoList s) ∧
  all_flagged true (heap s) (completedList s).

(** Every object ever created is held exactly once by the two arrays
    together. *)
Definition partitioned (s : State) : Prop :=
  todoList s ++ completedList s ≡ₚ seq 0 (length (heap s)).

(** The ids were given in the order of creation, from 1. *)
Definition ids_in_order (s : State) : Prop :=
  ∀ l t, heap s !! l = Some t → id t = Z.of_nat l + 1.

(** Some entry of the array [ls] has the id [i]. *)
Definition holds_id (s : State) (ls : list loc) (i : Z) : Prop :=
  Exists (has_id (heap s) i) ls.

#[global] Instance holds_id_dec s ls i : Decision (holds_id s ls i).
Proof. unfold holds_id. apply _. Defined.

(** The text [saveTodos] hands to the storage. *)
Definition saved_text `{Platform} (s : State) : string :=
  JSON_stringify (values (heap s) (todoList s ++ completedList s)).

(** ** A browser to run the controller on

    [Json.stringify] writes the text [JSON.stringify] writes for an array of
    Todo records; [Json.parse] reads such texts back, and nothing else (no
    blank space, no other order of the keys). *)

Module Json.

(** The double quote and the backslash. *)
Definition dq : ascii := "034".
Definition bs : ascii := "092".

Definition Parser (A : Type) : Type := string → option (A * string).

(** [put p r] is [p] followed by [r]: every writer below takes the text
    that comes after what it writes. *)
Fixpoint put (p r : string) : string :=
  match p with
  | EmptyString => r
  | String c p' => String c (put p' r)
  end.

(** Consumes the literal [p]. *)
Fixpoint lit (p : string) : Parser unit :=
  λ s, match p with
       | EmptyString => Some ((), s)
       | String c p' =>
           match s with
           | String d s' => if Ascii.eqb c d then lit p' s' else None
           | EmptyString => None
           end
       end.

Definition hex_digits : list ascii :=
  ["0"; "1"; "2"; "3"; "4"; "5"; "6"; "7";
   "8"; "9"; "a"; "b"; "c"; "d"; "e"; "f"]%char.

Definition hex_digit (n : nat) : ascii := default "0"%char (hex_digits !! n).

Definition hex_value (c : ascii) : option nat :=
  fst <$> list_find (λ d, d = c) hex_digits.

(** The letter after the backslash for the characters that have a short
    escape, and back. *)
Definition short_escape (c : ascii) : option ascii :=
  if Ascii.eqb c dq then Some dq
  else if Ascii.eqb c bs then Some bs
  else if Ascii.eqb c "008" then Some "b"%char
  else if Ascii.eqb c "012" then Some "f"%char
  else if Ascii.eqb c "010" then Some "n"%char
  else if Ascii.eqb c "013" then Some "r"%char
  else if Ascii.eqb c "009" then Some "t"%char
  else None.

Definition short_unescape (e : ascii) : option ascii :=
  if Ascii.eqb e dq then Some dq
  else if Ascii.eqb e bs then Some bs
  else if Ascii.eqb e "b" then Some "008"%char
  else if Ascii.eqb e "f" then Some "012"%char
  else if Ascii.eqb e "n" then Some "010"%char
  else if Ascii.eqb e "r" then Some "013"%char
  else if Ascii.eqb e "t" then Some "009"%char
  else None.

Definition is_control (c : ascii) : bool := (nat_of_ascii c <? 32)%nat.

Definition escape_char (c : ascii) : string :=
  match short_escape c with
  | Some e => String bs (String e "")
  | None =>
      if is_control c then
        String bs (String "u" (String "0" (String "0"
          (String (hex_digit (nat_of_ascii c / 16))
             (String (hex_digit (nat_of_ascii c mod 16)) "")))))
      else String c ""
  end.

Fixpoint escape (s r : string) : string :=
  match s with
  | EmptyString => r
  | String c s' => put (escape_char c) (escape s' r)
  end.

Definition show_string (s r : string) : string :=
  String dq (escape s (String dq r)).

Definition add_char (c : ascii) (x : string * string) : string * string :=
  (String c x.1, x.2).

(** The characters of a string literal after its opening quote, up to and
    with the closing one. *)
Fixpoint read_chars (s : string) : option (string * string) :=
  match s with
  | EmptyString => None
  | String c s1 =>
      if Ascii.eqb c dq then Some (EmptyString, s1)
      else if Ascii.eqb c bs then
        match s1 with
        | String e s2 =>
            match short_unescape e with
            | Some c' => add_char c' <$> read_chars s2
            | None =>
                match s2 with
                | String a (String b (String x (String y s3))) =>
                    if Ascii.eqb e "u" && Ascii.eqb a "0" && Ascii.eqb b "0"
                    then
                      match hex_value x, hex_value y with
                      | Some hi, Some lo =>
                          add_char (ascii_of_nat (16 * hi + lo))
                            <$> read_chars s3
                      | _, _ => None
                      end
                    else None
                | _ => None
                end
            end
        | EmptyString => None
        end
      else if is_control c then None
      else add_char c <$> read_chars s1
  end.

Definition read_string : Parser string :=
  λ s, match s with
       | String c s' => if Ascii.eqb c dq then read_chars s' else None
       | EmptyString => None
       end.

Definition show_bool (b : bool) (r : string) : string :=
  put (if b then "true" else "false") r.

Definition read_bool : Parser bool :=
  λ s, match lit "true" s with
       | Some (_, r) => Some (true, r)
       | None => match lit "false" s with
                 | Some (_, r) => Some (false, r)
                 | None => None
                 end
       end.

Definition show_Z (z : Z) (r : string) : string :=
  put (NilZero.string_of_int (Z.to_int z)) r.

Definition is_numeral (c : ascii) : bool :=
  Ascii.eqb c "-" || ((48 <=? nat_of_ascii c) && (nat_of_ascii c <=? 57))%nat.

Fixpoint span_numeral (s : string) : string * string :=
  match s with
  | String c s' =>
      if is_numeral c then add_char c (span_numeral s') else (EmptyString, s)
  | EmptyString => (EmptyString, EmptyString)
  end.

(** Every character of [s] may stand in a numeral. *)
Fixpoint numerals (s : string) : bool :=
  match s with
  | EmptyString => true
  | String c s' => is_numeral c && numerals s'
  end.

Definition read_Z : Parser Z :=
  λ s, let (n, r) := span_numeral s in
       match NilZero.int_of_string n with
       | Some d => Some (Z.of_int d, r)
       | None => None
       end.

(** A key of an object, with its colon. *)
Definition key (k : string) : string := String dq (put k (String dq ":")).

Definition show_Todo (t : Todo) (r : string) : string :=
  put "{" $ put (key "id") $ show_Z (id t) $
  put "," $ put (key "text") $ show_string (text t) $
  put "," $ put (key "completed") $ show_bool (completed t) $
  put "," $ put (key "priority") $ show_string (priority t) $
  put "," $ put (key "dueDate") $ show_string (dueDate t) $
  put "}" r.

Definition read_Todo : Parser Todo :=
  λ s,
    '(_, s) ← lit "{" s;
    '(_, s) ← lit (key "id") s;
    '(i, s) ← read_Z s;
    '(_, s) ← lit "," s;
    '(_, s) ← lit (key "text") s;
    '(x, s) ← read_string s;
    '(_, s) ← lit "," s;
    '(_, s) ← lit (key "completed") s;
    '(c, s) ← read_bool s;
    '(_, s) ← lit "," s;
    '(_, s) ← lit (key "priority") s;
    '(p, s) ← read_string s;
    '(_, s) ← lit "," s;
    '(_, s) ← lit (key "dueDate") s;
    '(d, s) ← read_string s;
    '(_, s) ← lit "}" s;
    Some (mkTodo i x c p d, s).

(** The items of a non-empty array and its closing bracket. *)
Fixpoint show_items (t : Todo) (ts : list Todo) (r : string) : string :=
  match ts with
  | [] => show_Todo t (put "]" r)
  | t' :: ts' => show_Todo t (put "," (show_items t' ts' r))
  end.

Definition stringify (ts : list Todo) : string :=
  match ts with
  | [] => "[]"
  | t :: ts' => put "[" (show_items t ts' "")
  end.

(** Reads the items of a non-empty array and its closing bracket; [fuel]
    bounds the number of items. *)
Fixpoint read_items (fuel : nat) (s : string) : option (list Todo * string) :=
  match fuel with
  | O => None
  | S fuel' =>
      '(t, s) ← read_Todo s;
      match s with
      | String c s' =>
          if Ascii.eqb c "," then
            '(ts, r) ← read_items fuel' s'; Some (t :: ts, r)
          else if Ascii.eqb c "]" then Some ([t], s')
          else None
      | EmptyString => None
      end
  end.

Definition parse (s : string) : option (list Todo) :=
  match lit "[]" s with
  | Some (_, EmptyString) => Some []
  | _ =>
      '(_, s') ← lit "[" s;
      match read_items (String.length s') s' with
      | Some (ts, EmptyString) => Some ts
      | _ => None
      end
  end.

End Json.

(** Five MiB of storage, as browsers give a page. *)
#[global] Instance browser : Platform := {|
  JSON_stringify := Json.stringify;
  JSON_parse := Json.parse;
  quota := λ v, bool_decide (Z.of_nat (String.length v) ≤ 5242880);
|}.

(** ** Scenarios *)

(** The page of a first visit, once the controller is constructed. *)
Definition first_visit `{Platform} : State := exec constructor (page None).

(** Two items added, the first one completed, a third one added. *)
Definition three_items : list Gesture :=
  [Add "Buy milk" "high" "2024-01-01"; Add "Walk dog" "low" "2024-01-02";
   Toggle 1; Add "Pay rent" "medium" "2024-01-03"].

(** ** What the view was last handed *)

(** The items of the last [displayTodos] call, if there was one. *)
Definition shown_todos (tr : list Event) : option (list Todo) :=
  last (omap (λ e, match e with DisplayTodos ts => Some ts | _ => None end) tr).

(** The items of the last [displayCompleted] call, if there was one. *)
Definition shown_completed (tr : list Event) : option (list Todo) :=
  last (omap (λ e, match e with DisplayCompleted ts => Some ts | _ => None end)
          tr).

(** The view shows the two arrays as they are: what it was last handed for
    each is what the array holds now, and an array it was never handed is
    empty. *)
Definition in_view (s : State) : Prop :=
  match shown_todos (trace s) with
  | Some ts => ts = values (heap s) (todoList s)
  | None => todoList s = []
  end ∧
  match shown_completed (trace s) with
  | Some ts => ts = values (heap s) (completedList s)
  | None => completedList s = []
  end.

(** Two records that differ at most in [completed]. *)
Definition same_item (t t' : Todo) : Prop :=
  id t' = id t ∧ text t' = text t ∧
  priority t' = priority t ∧ dueDate t' = dueDate t.

(** A gesture the controller has something to do for: an item to add, or an
    id one of the arrays holds. *)
Definition effective (g : Gesture) (s : State) : Prop :=
  match g with
  | Add _ _ _ => True
  | Toggle i => holds_id s (todoList s) i ∨ holds_id s (completedList s) i
  end.

(** A browser whose storage is full: it refuses every write. *)
Definition full_storage : Platform := {|
  JSON_stringify := Json.stringify;
  JSON_parse := Json.parse;
  quota := λ _, false;
|}.

(** ** The tab: gestures and reloads *)

(** A tab of the browser: a page with its controller, or a page whose
    script ended with an error (no controller, no handler bound), of which
    the storage is what is left. *)
Inductive Tab :=
| Alive (s : State)
| Dead (stored : option string).

Inductive Navigation :=
| Do (g : Gesture)      (* a gesture on the page *)
| Reload.               (* the page is loaded again: a new controller *)

(** Loading the page: the script constructs the controller. *)
Definition load_page `{Platform} (stored : option string) : Tab :=
  match constructor (page stored) with
  | (inr _, s) => Alive s
  | (inl _, s) => Dead (storage s)
  end.

Definition visit `{Platform} (c : Copy) (t : Tab) (n : Navigation) : Tab :=
  match t, n with
  | Alive s, Do g => Alive (exec (handle c g) s)
  | Alive s, Reload => load_page (storage s)
  | Dead stored, Do _ => Dead stored
  | Dead stored, Reload => load_page stored
  end.

Definition browse `{Platform} (c : Copy) (ns : list Navigation) (t : Tab)
  : Tab := foldl (visit c) t ns.

(** The ids [ks] are distinct and each is between 1 and their number: they
    are the numbers from 1 to their number, in some order. *)
Definition numbered (ks : list Z) : Prop :=
  NoDup ks ∧ Forall (λ i, 1 ≤ i ≤ Z.of_nat (length ks)) ks.

(** The items the controller holds, the active ones first. *)
Definition items (s : State) : list Todo :=
  values (heap s) (todoList s ++ completedList s).

(** What is stored, if anything, is the text of items with numbered ids. *)
Definition stored_numbered `{Platform} (stored : option string) : Prop :=
  match stored with
  | None => True
  | Some str => ∃ ts, str = JSON_stringify ts ∧ numbered (id <$> ts)
  end.

(** What the documented copy keeps: every object is held once, the ids of
    the objects are numbered, and so are the ids of what is stored. *)
Definition kept `{Platform} (s : State) : Prop :=
  partitioned s ∧ numbered (id <$> heap s) ∧ stored_numbered (storage s).

(** ** View: [class TodoView] (src/js/todo.js:77-170)

    The view of src/js/todo.js and of the documented copy (they differ in
    the text of the alert).  The first, undocumented copy has another view,
    with no priority and no due date, which is not modelled. *)

(** [String.prototype.trim], the browser's. *)
Class Strings := {
  trim : string → string;
}.

(** An element the view creates: what the code sets on it, and its
    children in the order they are appended.  [change] is the listener of
    the "change" event: [Some i] calls [this.handler(i)]. *)
#[warnings="-register-all"] Inductive Element := mkElement {
  tagName : string;
  classList : list string;
  attributes : list (string * string);
  checked : bool;
  textContent : string;
  change : option Z;
  children : list Element;
}.

(** [createToDoElement(todo, checked = false)], todo.js:121-153.  The
    listener reads [todo.id] when the event comes; no code ever assigns an
    id, so that is the id the item has now. *)
Definition createToDoElement (todo : Todo) (checked : bool) : Element :=
  let checkbox :=
    mkElement "input" ["col-1"; "align-self-center"]
      [("type", "checkbox"); ("name", "todo");
       ("data-id", Json.show_Z (id todo) "")]
      checked "" (Some (id todo)) [] in
  let textElement :=
    mkElement "span" ["col-7"; "todo-text"] [] false (text todo) None [] in
  let priorityElement :=
    mkElement "span" ["priority"; "col-2"] [] false
      ("Priority: " +:+ priority todo) None [] in
  let dueDateElement :=
    mkElement "span" ["due-date"; "col-2"] [] false
      ("Due Date: " +:+ dueDate todo) None [] in
  mkElement "li"
    ["list-group-item"; "todo-item"; "row"; "flex-nowrap"; "align-items-start"]
    [] false "" None
    [checkbox; textElement; priorityElement; dueDateElement].

(** [displayTodos(todos)], todo.js:155-161: the children of the list element
    after the call. *)
Definition displayTodos (todos : list Todo) : list Element :=
  (λ todo, createToDoElement todo false) <$> todos.

(** [displayCompleted(todos)], todo.js:163-169 *)
Definition displayCompleted (todos : list Todo) : list Element :=
  (λ todo, createToDoElement todo true) <$> todos.

(** The rows of the two list elements after the calls of a trace; [None]:
    the list is as the HTML page has it, the view never filled it. *)
Definition todoListElement (tr : list Event) : option (list Element) :=
  displayTodos <$> shown_todos tr.

Definition completedListElement (tr : list Event) : option (list Element) :=
  displayCompleted <$> shown_completed tr.

(** The values of the three inputs. *)
Record Form := mkForm {
  todoInput : string;
  prioritySelect : string;
  dueDateInput : string;
}.

(** The page: the controller with its view, the inputs, the alerts shown so
    far. *)
Record Page := mkPage {
  controller : State;
  form : Form;
  alerts : list string;
}.

(** The text of the alert, todo.js:93 and line 423 of the documented copy. *)
Definition alert_text (c : Copy) : string :=
  match c with
  | SrcJs =>
      "Please fill out all required fields before adding a todo item."
  | DocumentedCopy =>
      "Please fill out both the description and due date before adding a todo item."
  end.

(** [handleToDoInput(handler)], todo.js:91-104.  When the handler throws,
    the two assignments after the call are not reached. *)
Definition handleToDoInput `{Strings} (c : Copy)
    (handler : string → string → string → M unit) (p : Page)
  : (Exn + unit) * Page :=
  let f := form p in
  if decide (trim (todoInput f) = "" ∨ dueDateInput f = "") then
    (inr (), mkPage (controller p) f (alerts p ++ [alert_text c]))
  else
    let text := trim (todoInput f) in
    let priority := prioritySelect f in
    let dueDate := dueDateInput f in
    if decide (text ≠ "") then
      match handler text priority dueDate (controller p) with
      | (inr _, s) => (inr (), mkPage s (mkForm "" priority "") (alerts p))
      | (inl e, s) => (inl e, mkPage s f (alerts p))
      end
    else (inr (), p).

(** What happens on the page. *)
Inductive UIEvent :=
| Input_text (v : string)       (* the user edits the text of the item *)
| Select_priority (v : string)  (* picks a priority *)
| Pick_date (v : string)        (* picks a due date *)
| Click_add                     (* "click" on the add button *)
| Keypress (key : string)       (* "keypress" in the text input *)
| Change_todo (k : nat)         (* "change" on the checkbox of row k of the
                                   active list *)
| Change_completed (k : nat).   (* the same in the completed list *)

(** The "change" event on the checkbox of a row, the first child of the
    row: its listener calls [this.handler], which [bindToggleCompleted] set
    to [toggleCompleted]. *)
Definition fire_change `{Platform} (row : Element) : M unit :=
  match change <$> head (children row) with
  | Some (Some i) => toggleCompleted i
  | _ => ret ()
  end.

(** The listeners of [bindAddTodo] (todo.js:105-115) and of the rows, with
    the handlers the constructor bound.  An exception ends the listener. *)
Definition on `{Platform} `{Strings} (c : Copy) (e : UIEvent) (p : Page)
  : (Exn + unit) * Page :=
  let f := form p in
  match e with
  | Input_text v =>
      (inr (), mkPage (controller p)
                 (mkForm v (prioritySelect f) (dueDateInput f)) (alerts p))
  | Select_priority v =>
      (inr (), mkPage (controller p)
                 (mkForm (todoInput f) v (dueDateInput f)) (alerts p))
  | Pick_date v =>
      (inr (), mkPage (controller p)
                 (mkForm (todoInput f) (prioritySelect f) v) (alerts p))
  | Click_add => handleToDoInput c (addTodo c) p
  | Keypress key =>
      if decide (key = "Enter") then handleToDoInput c (addTodo c) p
      else (inr (), p)
  | Change_todo k =>
      match todoListElement (trace (controller p)) ≫= (.!! k) with
      | Some row =>
          let (r, s) := fire_change row (controller p) in
          (r, mkPage s f (alerts p))
      | None => (inr (), p)
      end
  | Change_completed k =>
      match completedListElement (trace (controller p)) ≫= (.!! k) with
      | Some row =>
          let (r, s) := fire_change row (controller p) in
          (r, mkPage s f (alerts p))
      | None => (inr (), p)
      end
  end.

(** The page after a series of events. *)
Definition use `{Platform} `{Strings} (c : Copy) (es : list UIEvent) (p : Page)
  : Page := foldl (λ p e, (on c e p).2) p es.

(** The pages a user can be on: the script constructed the controller, and
    any number of events came since. *)
Inductive on_screen `{Platform} `{Strings} (c : Copy) : Page → Prop :=
| on_screen_loaded stored s f :
    constructor (page stored) = (inr (), s) → on_screen c (mkPage s f [])
| on_screen_event e p :
    on_screen c p → on_screen c (on c e p).2.

(** Trimming of the blanks of ASCII, for the examples. *)
Fixpoint trim_left (s : string) : string :=
  match s with
  | String c s' => if Ascii.is_space c then trim_left s' else s
  | EmptyString => EmptyString
  end.

#[global] Instance ascii_strings : Strings := {|
  trim := λ s, String.rev (trim_left (String.rev (trim_left s)));
|}.

(** An item with a text and a due date. *)
Definition filled (t : Todo) : Prop := text t ≠ "" ∧ dueDate t ≠ "".

(** The event submits the form: a click on the button, or Enter in the text
    input. *)
Definition submits (e : UIEvent) : Prop :=
  e = Click_add ∨ e = Keypress "Enter".

(** * Proofs *)

(** ** The reference browser reads what it writes *)

Module JsonFacts.
Import Json.

Lemma lit_put p r : lit p (put p r) = Some ((), r).
Proof. induction p as [|c p IH]; simpl; [done|]. by rewrite Ascii.eqb_refl. Qed.

Lemma length_put p r :
  String.length (put p r) = (String.length p + String.length r)%nat.
Proof. induction p as [|c p IH]; simpl; [done|]. by rewrite IH. Qed.

Lemma read_chars_escape_char c r :
  read_chars (put (escape_char c) r) = add_char c <$> read_chars r.
Proof. destruct c as [[] [] [] [] [] [] [] []]; reflexivity. Qed.

Lemma read_chars_escape s r :
  read_chars (escape s (String dq r)) = Some (s, r).
Proof.
  induction s as [|c s IH]; simpl; [done|].
  by rewrite read_chars_escape_char, IH.
Qed.

Lemma read_string_show s r : read_string (show_string s r) = Some (s, r).
Proof. apply read_chars_escape. Qed.

Lemma read_bool_show b r : read_bool (show_bool b r) = Some (b, r).
Proof. by destruct b. Qed.

Lemma span_numeral_put n c r :
  numerals n = true → is_numeral c = false →
  span_numeral (put n (String c r)) = (n, String c r).
Proof.
  intros Hn Hc. induction n as [|d n IH]; simpl in *.
  - by rewrite Hc.
  - apply andb_true_iff in Hn as [-> Hn]. by rewrite IH.
Qed.

Lemma numerals_uint d : numerals (NilEmpty.string_of_uint d) = true.
Proof. induction d; simpl; done. Qed.

Lemma numerals_int d : numerals (NilZero.string_of_int d) = true.
Proof.
  destruct d as [d|d]; simpl; destruct d; try done; apply numerals_uint.
Qed.

Lemma read_Z_show z r :
  read_Z (show_Z z (put "," r)) = Some (z, put "," r).
Proof.
  unfold read_Z, show_Z. change (put "," r) with (String "," r).
  rewrite span_numeral_put by auto using numerals_int.
  rewrite NilZero.isi.
  - by rewrite DecimalZ.of_to.
  - destruct z; simpl; [done| |done]. intros [= Hp].
    by apply Unsigned.to_uint_nonnil in Hp.
  - destruct z; simpl; [done..|]. intros [= Hp].
    by apply Unsigned.to_uint_nonnil in Hp.
Qed.

Lemma read_Todo_show t r : read_Todo (show_Todo t r) = Some (t, r).
Proof.
  unfold read_Todo, show_Todo.
  repeat (first
    [ rewrite lit_put | rewrite read_Z_show
    | rewrite read_string_show | rewrite read_bool_show ];
    cbn [mbind option_bind]).
  by destruct t.
Qed.

Lemma read_items_show fuel t ts r :
  (length ts < fuel)%nat →
  read_items fuel (show_items t ts r) = Some (t :: ts, r).
Proof.
  revert fuel t. induction ts as [|t' ts IH]; intros [|fuel] t Hf;
    simpl in *; try lia; rewrite read_Todo_show; simpl; [done|].
  rewrite IH by lia. done.
Qed.

Lemma length_put_le p r : (String.length r ≤ String.length (put p r))%nat.
Proof. rewrite length_put. lia. Qed.

Lemma length_escape_le s r :
  (String.length r ≤ String.length (escape s r))%nat.
Proof.
  induction s as [|c s IH]; simpl; [done|]. rewrite length_put. lia.
Qed.

Lemma length_show_string_le s r :
  (String.length r ≤ String.length (show_string s r))%nat.
Proof.
  unfold show_string. simpl.
  pose proof (length_escape_le s (String dq r)). simpl in *. lia.
Qed.

Lemma length_show_Todo t r :
  (String.length r < String.length (show_Todo t r))%nat.
Proof.
  unfold show_Todo, show_Z, show_bool. rewrite (length_put "{").
  change (String.length "{") with 1%nat. apply Nat.lt_succ_r.
  repeat (etrans; [|first [apply length_put_le|apply length_show_string_le]]).
  done.
Qed.

Lemma length_show_items t ts r :
  (length ts < String.length (show_items t ts r))%nat.
Proof.
  revert t. induction ts as [|t' ts IH]; intros t; simpl.
  - pose proof (length_show_Todo t (String "]" r)). lia.
  - pose proof (length_show_Todo t (String "," (show_items t' ts r))).
    specialize (IH t'). simpl in *. lia.
Qed.

Lemma parse_stringify ts : parse (stringify ts) = Some ts.
Proof.
  destruct ts as [|t ts]; [done|].
  unfold parse, stringify.
  assert (lit "[]" (put "[" (show_items t ts "")) = None) as ->.
  { by destruct ts. }
  rewrite lit_put. simpl.
  by rewrite read_items_show by apply length_show_items.
Qed.

Lemma stringify_nonempty ts : stringify ts ≠ "".
Proof. by destruct ts. Qed.

End JsonFacts.

#[global] Instance browser_round_trip : @JSONRoundTrip browser.
Proof.
  split; [apply JsonFacts.parse_stringify|apply JsonFacts.stringify_nonempty].
Qed.

(** ** The store under [forEach] *)

Lemma set_completed_same b t : completed t = b → set_completed b t = t.
Proof. destruct t; simpl; intros ->; reflexivity. Qed.

Lemma length_mark_all b ls h : length (mark_all b ls h) = length h.
Proof.
  revert h; induction ls as [|l ls IH]; intros h; simpl; [done|].
  by rewrite IH, length_alter.
Qed.

Lemma lookup_mark_all_in b ls h l :
  l ∈ ls → mark_all b ls h !! l = set_completed b <$> h !! l.
Proof.
  revert h; induction ls as [|x ls IH]; intros h Hin; simpl.
  - by apply elem_of_nil in Hin.
  - destruct (decide (l ∈ ls)) as [Hl|Hl].
    + rewrite IH by done.
      destruct (decide (x = l)) as [->|Hne].
      * rewrite list_lookup_alter_eq. by destruct (h !! l) as [[]|].
      * by rewrite list_lookup_alter_ne.
    + apply elem_of_cons in Hin as [->|]; [|done].
      clear IH. revert h. induction ls as [|y ls IH]; intros h; simpl.
      * apply list_lookup_alter_eq.
      * apply not_elem_of_cons in Hl as [Hxy Hl].
        rewrite list_alter_alter_ne by done. rewrite IH by done.
        by rewrite list_lookup_alter_ne.
Qed.

Lemma lookup_mark_all_out b ls h l :
  l ∉ ls → mark_all b ls h !! l = h !! l.
Proof.
  revert h; induction ls as [|x ls IH]; intros h Hin; simpl; [done|].
  apply not_elem_of_cons in Hin as [Hne Hin].
  rewrite IH by done. by rewrite list_lookup_alter_ne.
Qed.

Lemma id_mark_all b ls h l : id <$> mark_all b ls h !! l = id <$> h !! l.
Proof.
  destruct (decide (l ∈ ls)).
  - rewrite lookup_mark_all_in by done. by destruct (h !! l).
  - by rewrite lookup_mark_all_out.
Qed.

Lemma has_id_mark_all b ls h i l : has_id (mark_all b ls h) i l ↔ has_id h i l.
Proof. unfold has_id. by rewrite id_mark_all. Qed.

(** ** [find] *)

Lemma find_Some {A} (P : A → Prop) `{∀ x, Decision (P x)} (l : list A) x :
  find P l = Some x → x ∈ l ∧ P x.
Proof.
  unfold find. destruct (list_find P l) as [[k y]|] eqn:E; simpl; [|done].
  intros [= ->]. apply list_find_Some in E as (Hk & HP & _).
  split; [by eapply list_elem_of_lookup_2|done].
Qed.

Lemma find_None {A} (P : A → Prop) `{∀ x, Decision (P x)} (l : list A) :
  find P l = None ↔ ¬ Exists P l.
Proof.
  unfold find. rewrite fmap_None, list_find_None.
  rewrite <-Forall_Exists_neg. done.
Qed.

Lemma find_is_Some {A} (P : A → Prop) `{∀ x, Decision (P x)} (l : list A) :
  is_Some (find P l) ↔ Exists P l.
Proof.
  rewrite <-not_eq_None_Some, find_None.
  split; [apply dec_stable|tauto].
Qed.

(** ** What each method does to the state *)

Lemma exec_eq {A} (m : M A) s r s' : m s = (r, s') → exec m s = s'.
Proof. unfold exec. by intros ->. Qed.

Lemma outcome_eq {A} (m : M A) s r s' : m s = (r, s') → outcome m s = r.
Proof. unfold outcome. by intros ->. Qed.

(** Unfolds the plumbing of a method down to the state it builds. *)
Ltac run_js :=
  cbv beta iota delta
    [bind gets modify ret set_todoList set_completedList set_heap emit
     todoList_push completedList_push completedList_forEach_set
     todoList_forEach_set view_displayTodos view_displayCompleted
     localStorage_getItem new_Todo
     heap todoList completedList storage trace].

Section Operations.
Context `{Platform}.

Lemma saveTodos_eq s :
  saveTodos s =
  (if quota (saved_text s) then inr () else inl QuotaExceededError,
   mkState (heap s) (todoList s) (completedList s)
           (if quota (saved_text s) then Some (saved_text s) else storage s)
           (trace s ++ [SetItem (saved_text s)])).
Proof. reflexivity. Qed.

(** An id found in the active array: the entries with that id leave the
    array, the one found joins the completed array, which is stamped; both
    arrays are rendered and the state is saved. *)
Lemma toggleCompleted_active s i l :
  find (has_id (heap s) i) (todoList s) = Some l →
  let tl' := filter (λ t, ¬ has_id (heap s) i t) (todoList s) in
  let cl' := completedList s ++ [l] in
  let h' := mark_all true cl' (heap s) in
  toggleCompleted i s =
  saveTodos (mkState h' tl' cl' (storage s)
               (trace s ++ [DisplayTodos (values h' tl');
                            DisplayCompleted (values h' cl')])).
Proof.
  destruct s as [h tl cl st tr]. simpl. intros Hf.
  unfold toggleCompleted. run_js. rewrite Hf. run_js.
  by rewrite <-app_assoc.
Qed.

Lemma toggleCompleted_done s i l :
  find (has_id (heap s) i) (todoList s) = None →
  find (has_id (heap s) i) (completedList s) = Some l →
  let cl' := filter (λ t, ¬ has_id (heap s) i t) (completedList s) in
  let tl' := todoList s ++ [l] in
  let h' := mark_all false tl' (heap s) in
  toggleCompleted i s =
  saveTodos (mkState h' tl' cl' (storage s)
               (trace s ++ [DisplayTodos (values h' tl');
                            DisplayCompleted (values h' cl')])).
Proof.
  destruct s as [h tl cl st tr]. simpl. intros Hf Hg.
  unfold toggleCompleted. run_js. rewrite Hf, Hg. run_js.
  by rewrite <-app_assoc.
Qed.

Lemma toggleCompleted_absent s i :
  find (has_id (heap s) i) (todoList s) = None →
  find (has_id (heap s) i) (completedList s) = None →
  toggleCompleted i s = (inr (), s).
Proof.
  destruct s as [h tl cl st tr]. simpl. intros Hf Hg.
  unfold toggleCompleted. run_js. by rewrite Hf, Hg.
Qed.

Lemma addTodo_js_eq s text priority dueDate :
  let t := mkTodo (Z.of_nat (length (todoList s)) + 1)
                  text false priority dueDate in
  let h' := heap s ++ [t] in
  let tl' := todoList s ++ [length (heap s)] in
  Js.addTodo text priority dueDate s =
  saveTodos (mkState h' tl' (completedList s) (storage s)
               (trace s ++ [DisplayTodos (values h' tl')])).
Proof.
  destruct s as [h tl cl st tr].
  unfold Js.addTodo, Documented.addTodo. run_js. reflexivity.
Qed.

Lemma addTodo_documented_eq s text priority dueDate :
  let t := mkTodo (Z.of_nat (length (todoList s)) +
                   Z.of_nat (length (completedList s)) + 1)
                  text false priority dueDate in
  let h' := heap s ++ [t] in
  let tl' := todoList s ++ [length (heap s)] in
  Documented.addTodo text priority dueDate s =
  saveTodos (mkState h' tl' (completedList s) (storage s)
               (trace s ++ [DisplayTodos (values h' tl')])).
Proof.
  destruct s as [h tl cl st tr].
  unfold Js.addTodo, Documented.addTodo. run_js. reflexivity.
Qed.

(** Both copies of [addTodo] create one object, not completed, and append
    it to the active array; they differ in its id only. *)
Lemma addTodo_eq c s text priority dueDate :
  ∃ n, addTodo c text priority dueDate s =
       let h' := heap s ++ [mkTodo n text false priority dueDate] in
       let tl' := todoList s ++ [length (heap s)] in
       saveTodos (mkState h' tl' (completedList s) (storage s)
                    (trace s ++ [DisplayTodos (values h' tl')])).
Proof.
  destruct c; eexists; [apply addTodo_js_eq|apply addTodo_documented_eq].
Qed.

Lemma loadTodos_absent s : storage s = None → loadTodos s = (inr (), s).
Proof.
  destruct s as [h tl cl st tr]; simpl; intros ->. reflexivity.
Qed.

Lemma loadTodos_empty s : storage s = Some "" → loadTodos s = (inr (), s).
Proof.
  destruct s as [h tl cl st tr]; simpl; intros ->. reflexivity.
Qed.

Lemma loadTodos_malformed s str :
  storage s = Some str → str ≠ "" → JSON_parse str = None →
  loadTodos s = (inl SyntaxError, s).
Proof.
  destruct s as [h tl cl st tr]; simpl; intros -> Hne Hp.
  unfold loadTodos, JSON_parse_array. run_js.
  rewrite decide_False by done. by rewrite Hp.
Qed.

(** The objects [JSON.parse] built are the new ones, in the order of the
    text; each goes to the array its [completed] field names. *)
Lemma loadTodos_parsed s str ts :
  storage s = Some str → str ≠ "" → JSON_parse str = Some ts →
  let h' := heap s ++ ts in
  let todos := seq (length (heap s)) (length ts) in
  let tl' := filter (λ todo, ¬ is_completed h' todo) todos in
  let cl' := filter (λ todo, is_completed h' todo) todos in
  loadTodos s =
  (inr (), mkState h' tl' cl' (storage s)
             (trace s ++ [DisplayTodos (values h' tl');
                          DisplayCompleted (values h' cl')])).
Proof.
  destruct s as [h tl cl st tr]; simpl; intros -> Hne Hp.
  unfold loadTodos, JSON_parse_array. run_js.
  rewrite decide_False by done. rewrite Hp. run_js.
  by rewrite <-app_assoc.
Qed.

(** The constructor on a page: [loadTodos], and when it returns, the two
    handlers are bound. *)
Lemma constructor_eq stored :
  constructor (page stored) =
  match loadTodos (page stored) with
  | (inr _, s) =>
      (inr (), mkState (heap s) (todoList s) (completedList s) (storage s)
                 (trace s ++ [BindAddTodo; BindToggleCompleted]))
  | (inl e, s) => (inl e, s)
  end.
Proof.
  unfold constructor, page. run_js.
  destruct (loadTodos _) as [[e|[]] [h tl cl st tr]]; [done|].
  by rewrite <-app_assoc.
Qed.

Lemma constructor_absent :
  constructor (page None) =
  (inr (), mkState [] [] [] None [BindAddTodo; BindToggleCompleted]).
Proof. reflexivity. Qed.

Lemma exec_saveTodos_heap s : heap (exec saveTodos s) = heap s.
Proof. reflexivity. Qed.

Lemma exec_saveTodos_todoList s : todoList (exec saveTodos s) = todoList s.
Proof. reflexivity. Qed.

Lemma exec_saveTodos_completedList s :
  completedList (exec saveTodos s) = completedList s.
Proof. reflexivity. Qed.

End Operations.

(** ** The [completed] field follows the arrays *)

Lemma all_flagged_alloc b h ts ls :
  all_flagged b h ls → all_flagged b (h ++ ts) ls.
Proof.
  unfold all_flagged. intros Hf. eapply Forall_impl; [exact Hf|].
  simpl. intros l Hl.
  destruct (h !! l) as [t|] eqn:E; [|done].
  by rewrite (lookup_app_l_Some _ _ _ _ E).
Qed.

Lemma all_flagged_disjoint b h ls ls' l :
  all_flagged b h ls → all_flagged (negb b) h ls' → l ∈ ls → l ∉ ls'.
Proof.
  unfold all_flagged. rewrite !Forall_forall. intros H1 H2 Hl Hl'.
  specialize (H1 _ Hl). specialize (H2 _ Hl'). rewrite H1 in H2.
  by destruct b.
Qed.

(** One move of [toggleCompleted], from the array [src] (flags [negb b]) to
    the array [dst] (flags [b]): what is left of [src] keeps its flags, and
    [dst] with the moved object at its tail is flagged [b] throughout. *)
Lemma move_flagged b h src dst i l :
  all_flagged (negb b) h src → all_flagged b h dst →
  l ∈ src → has_id h i l →
  let h' := mark_all b (dst ++ [l]) h in
  all_flagged (negb b) h' (filter (λ t, ¬ has_id h i t) src) ∧
  all_flagged b h' (dst ++ [l]).
Proof.
  intros Hsrc Hdst Hl Hid h'. split.
  - apply Forall_forall. intros x [Hx Hin]%list_elem_of_filter.
    unfold h'. rewrite lookup_mark_all_out.
    + unfold all_flagged in Hsrc. rewrite Forall_forall in Hsrc. auto.
    + rewrite elem_of_app, list_elem_of_singleton. intros [Hd| ->]; [|done].
      eapply (all_flagged_disjoint (negb b)); [done| |done..].
      by rewrite negb_involutive.
  - apply Forall_forall. intros x Hx.
    unfold h'. rewrite lookup_mark_all_in by done.
    assert (is_Some (h !! x)) as [t ->]; [|done].
    apply elem_of_app in Hx as [Hx| ->%list_elem_of_singleton].
    + unfold all_flagged in Hdst. rewrite Forall_forall in Hdst.
      specialize (Hdst _ Hx). by destruct (h !! x).
    + unfold has_id in Hid. by destruct (h !! l).
Qed.

Section Invariants.
Context `{Platform}.

Lemma consistent_saveTodos s : consistent s → consistent (exec saveTodos s).
Proof. done. Qed.

Lemma consistent_toggleCompleted s i :
  consistent s → consistent (exec (toggleCompleted i) s).
Proof.
  intros [Ha Hc]. unfold exec.
  destruct (find (has_id (heap s) i) (todoList s)) as [l|] eqn:Hf.
  - rewrite (toggleCompleted_active _ _ _ Hf). apply consistent_saveTodos.
    apply find_Some in Hf as [Hl Hid].
    apply (move_flagged true); done.
  - destruct (find (has_id (heap s) i) (completedList s)) as [l|] eqn:Hg.
    + rewrite (toggleCompleted_done _ _ _ Hf Hg). apply consistent_saveTodos.
      apply find_Some in Hg as [Hl Hid].
      apply and_comm. apply (move_flagged false); done.
    + by rewrite (toggleCompleted_absent _ _ Hf Hg).
Qed.

Lemma consistent_addTodo c s text priority dueDate :
  consistent s → consistent (exec (addTodo c text priority dueDate) s).
Proof.
  intros [Ha Hc]. unfold exec.
  destruct (addTodo_eq c s text priority dueDate) as [n ->].
  apply consistent_saveTodos. split; simpl.
  - apply Forall_app. split; [by apply all_flagged_alloc|].
    apply Forall_singleton. by rewrite lookup_app_r, Nat.sub_diag.
  - by apply all_flagged_alloc.
Qed.

Lemma consistent_loadTodos s :
  consistent s → consistent (exec loadTodos s).
Proof.
  intros Hs. unfold exec.
  destruct (storage s) as [str|] eqn:Hst;
    [|by rewrite loadTodos_absent].
  destruct (decide (str = "")) as [->|Hne]; [by rewrite loadTodos_empty|].
  destruct (JSON_parse str) as [ts|] eqn:Hp;
    [|by rewrite (loadTodos_malformed _ _ Hst Hne Hp)].
  rewrite (loadTodos_parsed _ _ _ Hst Hne Hp). simpl.
  split; simpl; apply Forall_forall; intros l [Hl Hin]%list_elem_of_filter.
  - apply elem_of_seq in Hin.
    destruct (lookup_lt_is_Some_2 (heap s ++ ts) l) as [t Ht].
    { rewrite length_app. lia. }
    unfold is_completed in Hl. rewrite Ht in *. simpl in *.
    destruct (completed t); [by destruct Hl|done].
  - done.
Qed.

Lemma consistent_constructor stored s :
  constructor (page stored) = (inr (), s) → consistent s.
Proof.
  intros Hc.
  assert (consistent (exec loadTodos (page stored))) as Hl.
  { apply consistent_loadTodos. split; apply Forall_nil_2. }
  revert Hc Hl. rewrite constructor_eq. unfold exec.
  destruct (loadTodos (page stored)) as [[e|[]] s']; simpl; [done|].
  intros [= <-]. done.
Qed.

Lemma reachable_consistent c s : reachable c s → consistent s.
Proof.
  induction 1 as [stored s Hc|g s _ IH].
  - by eapply consistent_constructor.
  - destruct g; simpl.
    + by apply consistent_addTodo.
    + by apply consistent_toggleCompleted.
Qed.

End Invariants.

(** ** Lists *)

Lemma filter_all {A} (P : A → Prop) `{∀ x, Decision (P x)} (l : list A) :
  Forall P l → filter P l = l.
Proof.
  induction 1 as [|x l Hx _ IH]; [done|].
  by rewrite filter_cons_True, IH.
Qed.

Lemma filter_none {A} (P : A → Prop) `{∀ x, Decision (P x)} (l : list A) :
  Forall (λ x, ¬ P x) l → filter P l = [].
Proof.
  induction 1 as [|x l Hx _ IH]; [done|].
  by rewrite filter_cons_False.
Qed.

Lemma find_app_tail {A} (P : A → Prop) `{∀ x, Decision (P x)} (l : list A) x :
  ¬ Exists P l → P x → find P (l ++ [x]) = Some x.
Proof.
  intros Hl Hx. rewrite <-find_None in Hl. unfold find in *.
  apply fmap_None in Hl. rewrite list_find_app_r by done.
  simpl. rewrite decide_True by done. done.
Qed.

(** Removing by a property that singles out one element of a list without
    repeats, and putting that element back at the tail, permutes the list. *)
Lemma filter_out_one {A} (P : A → Prop) `{∀ x, Decision (P x)} (l : list A) x :
  NoDup l → (∀ y, y ∈ l → P y → y = x) → x ∈ l → P x →
  filter (λ y, ¬ P y) l ++ [x] ≡ₚ l.
Proof.
  induction 1 as [|y l Hy Hnd IH]; intros Huniq Hin Hx.
  - by apply elem_of_nil in Hin.
  - destruct (decide (P y)) as [HPy|HPy].
    + assert (y = x) as -> by (apply Huniq; [left|done]).
      rewrite filter_cons_False by tauto.
      rewrite filter_all.
      * by rewrite <-Permutation_cons_append.
      * apply Forall_forall. intros z Hz HPz.
        assert (z = x) as -> by (apply Huniq; [by right|done]). done.
    + rewrite filter_cons_True by done. simpl. f_equiv.
      apply elem_of_cons in Hin as [->|Hin]; [done|].
      apply IH; [|done..].
      intros z Hz. apply Huniq. by right.
Qed.

(** ** Toggling twice *)

(** After a move from [src] to [dst] (flag [b]) the move back, which stamps
    what is left of [src] and the object with [negb b], leaves every object
    of the store as it was before the first move. *)
Lemma move_back b h src dst i l :
  all_flagged (negb b) h src → all_flagged b h dst →
  l ∈ src → has_id h i l →
  mark_all (negb b) (filter (λ t, ¬ has_id h i t) src ++ [l])
    (mark_all b (dst ++ [l]) h) = h.
Proof.
  intros Hsrc Hdst Hl Hid. apply list_eq. intros x.
  assert (∀ y, y ∈ src → y ∉ dst) as Hdisj.
  { intros y Hy. eapply (all_flagged_disjoint (negb b)); [done| |done].
    by rewrite negb_involutive. }
  unfold all_flagged in *. rewrite Forall_forall in Hsrc, Hdst.
  destruct (decide (x ∈ filter (λ t, ¬ has_id h i t) src ++ [l])) as [Hx|Hx].
  - rewrite lookup_mark_all_in by done.
    apply elem_of_app in Hx as [[Hn Hx]%list_elem_of_filter|Hx].
    + rewrite lookup_mark_all_out.
      * specialize (Hsrc _ Hx). destruct (h !! x) as [t|]; [|done].
        simpl in *. f_equal. apply set_completed_same. congruence.
      * rewrite elem_of_app, list_elem_of_singleton.
        intros [Hd| ->]; [by eapply Hdisj|done].
    + apply list_elem_of_singleton in Hx as ->.
      rewrite lookup_mark_all_in by set_solver.
      specialize (Hsrc _ Hl). destruct (h !! l) as [t|]; [|done].
      simpl in *. f_equal.
      transitivity (set_completed (negb b) t); [done|].
      apply set_completed_same. congruence.
  - rewrite lookup_mark_all_out by done.
    destruct (decide (x ∈ dst ++ [l])) as [Hd|Hd].
    + rewrite lookup_mark_all_in by done.
      apply elem_of_app in Hd as [Hd|Hd];
        [|exfalso; apply Hx, elem_of_app; by right].
      specialize (Hdst _ Hd). destruct (h !! x) as [t|]; [|done].
      simpl in *. f_equal. apply set_completed_same. congruence.
    + by rewrite lookup_mark_all_out.
Qed.

Lemma filter_has_id_mark_all b ls h i (l : list loc) :
  filter (λ t, ¬ has_id (mark_all b ls h) i t) l =
  filter (λ t, ¬ has_id h i t) l.
Proof. apply list_filter_iff. intros x. by rewrite has_id_mark_all. Qed.

Lemma find_has_id_mark_all b ls h i (l : list loc) :
  find (has_id (mark_all b ls h) i) l = find (has_id h i) l.
Proof.
  induction l as [|x l IH]; [done|].
  unfold find in *. simpl.
  destruct (decide (has_id h i x)) as [Hx|Hx].
  - rewrite decide_True by (by apply has_id_mark_all). done.
  - rewrite decide_False by (by rewrite has_id_mark_all).
    destruct (list_find (has_id (mark_all b ls h) i) l) as [[]|],
             (list_find (has_id h i) l) as [[]|]; simpl in *; congruence.
Qed.

Lemma find_filter_out {A} (P : A → Prop) `{∀ x, Decision (P x)} (l : list A) :
  find P (filter (λ x, ¬ P x) l) = None.
Proof.
  apply find_None. rewrite <-Forall_Exists_neg. apply Forall_forall.
  by intros x [? _]%list_elem_of_filter.
Qed.

Section Toggle.
Context `{Platform}.

Lemma exec_toggleCompleted_active s i l :
  find (has_id (heap s) i) (todoList s) = Some l →
  heap (exec (toggleCompleted i) s)
    = mark_all true (completedList s ++ [l]) (heap s) ∧
  todoList (exec (toggleCompleted i) s)
    = filter (λ t, ¬ has_id (heap s) i t) (todoList s) ∧
  completedList (exec (toggleCompleted i) s) = completedList s ++ [l].
Proof.
  intros Hf. unfold exec. by rewrite (toggleCompleted_active _ _ _ Hf).
Qed.

Lemma exec_toggleCompleted_done s i l :
  find (has_id (heap s) i) (todoList s) = None →
  find (has_id (heap s) i) (completedList s) = Some l →
  heap (exec (toggleCompleted i) s)
    = mark_all false (todoList s ++ [l]) (heap s) ∧
  todoList (exec (toggleCompleted i) s) = todoList s ++ [l] ∧
  completedList (exec (toggleCompleted i) s)
    = filter (λ t, ¬ has_id (heap s) i t) (completedList s).
Proof.
  intros Hf Hg. unfold exec. by rewrite (toggleCompleted_done _ _ _ Hf Hg).
Qed.

(** An id of the active array only, toggled twice. *)
Lemma toggle_twice_active s i l :
  consistent s →
  find (has_id (heap s) i) (todoList s) = Some l →
  ¬ holds_id s (completedList s) i →
  let s2 := exec (toggleCompleted i) (exec (toggleCompleted i) s) in
  heap s2 = heap s ∧
  todoList s2 = filter (λ t, ¬ has_id (heap s) i t) (todoList s) ++ [l] ∧
  completedList s2 = completedList s.
Proof.
  intros [Ha Hc] Hf Hno.
  destruct (exec_toggleCompleted_active _ _ _ Hf) as (Hh1 & Ht1 & Hc1).
  destruct (find_Some _ _ _ Hf) as [Hl Hid].
  set (s1 := exec (toggleCompleted i) s) in *.
  assert (find (has_id (heap s1) i) (todoList s1) = None) as Hf1.
  { rewrite Hh1, Ht1, find_has_id_mark_all. apply find_filter_out. }
  assert (find (has_id (heap s1) i) (completedList s1) = Some l) as Hg1.
  { rewrite Hh1, Hc1, find_has_id_mark_all. by apply find_app_tail. }
  destruct (exec_toggleCompleted_done _ _ _ Hf1 Hg1) as (Hh2 & Ht2 & Hc2).
  simpl. rewrite Hh2, Ht2, Hc2, Hh1, Ht1, Hc1. split_and!.
  - by apply (move_back true).
  - done.
  - rewrite filter_has_id_mark_all, filter_app.
    rewrite filter_all.
    + rewrite filter_cons_False by tauto. apply app_nil_r.
    + by apply Forall_Exists_neg.
Qed.

(** An id of the completed array only, toggled twice. *)
Lemma toggle_twice_done s i l :
  consistent s →
  ¬ holds_id s (todoList s) i →
  find (has_id (heap s) i) (completedList s) = Some l →
  let s2 := exec (toggleCompleted i) (exec (toggleCompleted i) s) in
  heap s2 = heap s ∧
  todoList s2 = todoList s ∧
  completedList s2
    = filter (λ t, ¬ has_id (heap s) i t) (completedList s) ++ [l].
Proof.
  intros [Ha Hc] Hno Hg.
  assert (find (has_id (heap s) i) (todoList s) = None) as Hf
    by by apply find_None.
  destruct (exec_toggleCompleted_done _ _ _ Hf Hg) as (Hh1 & Ht1 & Hc1).
  destruct (find_Some _ _ _ Hg) as [Hl Hid].
  set (s1 := exec (toggleCompleted i) s) in *.
  assert (find (has_id (heap s1) i) (todoList s1) = Some l) as Hf1.
  { rewrite Hh1, Ht1, find_has_id_mark_all. by apply find_app_tail. }
  destruct (exec_toggleCompleted_active _ _ _ Hf1) as (Hh2 & Ht2 & Hc2).
  simpl. rewrite Hh2, Ht2, Hc2, Hh1, Ht1, Hc1. split_and!.
  - by apply (move_back false).
  - rewrite filter_has_id_mark_all, filter_app.
    rewrite filter_all.
    + rewrite filter_cons_False by tauto. apply app_nil_r.
    + by apply Forall_Exists_neg.
  - done.
Qed.

End Toggle.

(** ** Saving and loading *)

Lemma values_app h l1 l2 : values h (l1 ++ l2) = values h l1 ++ values h l2.
Proof. apply omap_app. Qed.

Lemma values_flagged b h ls :
  all_flagged b h ls → Forall (λ t, completed t = b) (values h ls).
Proof.
  intros Hf. apply Forall_forall. intros t (l & Hl & Ht)%list_elem_of_omap.
  unfold all_flagged in Hf. rewrite Forall_forall in Hf.
  specialize (Hf _ Hl). rewrite Ht in Hf. by injection Hf.
Qed.

(** Selecting among consecutive references by a property of the objects
    behind them selects among the objects. *)
Lemma values_filter_seq (Q : Todo → Prop) `{∀ t, Decision (Q t)}
    (P : loc → Prop) `{∀ l, Decision (P l)} (hp ts : list Todo) (n : nat) :
  (∀ k t, ts !! k = Some t → hp !! (n + k)%nat = Some t) →
  (∀ l t, hp !! l = Some t → (P l ↔ Q t)) →
  values hp (filter P (seq n (length ts))) = filter Q ts.
Proof.
  intros Hts HPQ. revert n Hts.
  induction ts as [|t ts IH]; intros n Hts; [done|].
  assert (hp !! n = Some t) as Hn.
  { rewrite <-(Nat.add_0_r n). by apply Hts. }
  assert (values hp (filter P (seq (S n) (length ts))) = filter Q ts) as IH'.
  { apply IH. intros k t' Hk. rewrite Nat.add_succ_comm. by apply Hts. }
  simpl. destruct (decide (P n)) as [HP|HP].
  - rewrite filter_cons_True by done.
    rewrite filter_cons_True by (by apply (HPQ _ _ Hn)).
    unfold values in *. simpl. rewrite Hn. simpl. by f_equal.
  - rewrite filter_cons_False by done.
    rewrite filter_cons_False by (by rewrite <-(HPQ _ _ Hn)).
    done.
Qed.

Lemma values_parsed (Q : Todo → Prop) `{∀ t, Decision (Q t)}
    (P : loc → Prop) `{∀ l, Decision (P l)} (h ts : list Todo) :
  (∀ l t, (h ++ ts) !! l = Some t → (P l ↔ Q t)) →
  values (h ++ ts) (filter P (seq (length h) (length ts))) = filter Q ts.
Proof.
  intros HPQ. apply values_filter_seq; [|done].
  intros k t Hk. by rewrite lookup_app_r, Nat.add_sub' by lia.
Qed.

Section SaveLoad.
Context `{Platform}.

Lemma save_load s :
  JSONRoundTrip → consistent s → outcome saveTodos s = inr () →
  let s2 := exec loadTodos (exec saveTodos s) in
  outcome loadTodos (exec saveTodos s) = inr () ∧
  values (heap s2) (todoList s2) = values (heap s) (todoList s) ∧
  values (heap s2) (completedList s2) = values (heap s) (completedList s).
Proof.
  intros [Hrt Hne] [Ha Hc] Hq.
  assert (quota (saved_text s) = true) as Hq'.
  { revert Hq. unfold outcome. rewrite saveTodos_eq. simpl.
    by destruct (quota _). }
  assert (storage (exec saveTodos s) = Some (saved_text s)) as Hst.
  { unfold exec. rewrite saveTodos_eq. simpl. by rewrite Hq'. }
  pose proof (loadTodos_parsed _ _ _ Hst (Hne _) (Hrt _)) as Hl.
  simpl in Hl.
  rewrite (exec_eq _ _ _ _ Hl), (outcome_eq _ _ _ _ Hl). simpl.
  split; [done|].
  rewrite values_app.
  apply values_flagged in Ha, Hc.
  set (ts := values (heap s) (todoList s) ++ values (heap s) (completedList s)).
  split.
  - rewrite (values_parsed (λ t, ¬ completed t = true)).
    + unfold ts. rewrite filter_app, filter_all, filter_none, app_nil_r; [done|..].
      * eapply Forall_impl; [exact Hc|]. simpl. intros t Ht. tauto.
      * eapply Forall_impl; [exact Ha|]. simpl. intros t ->. done.
    + intros l t Ht. unfold is_completed. rewrite Ht. simpl.
      split; intros Hn; contradict Hn; congruence.
  - rewrite (values_parsed (λ t, completed t = true)).
    + unfold ts. rewrite filter_app, filter_none, filter_all; [done|..].
      * done.
      * eapply Forall_impl; [exact Ha|]. simpl. intros t ->. done.
    + intros l t Ht. unfold is_completed. rewrite Ht. simpl.
      split; congruence.
Qed.

End SaveLoad.

(** ** The documented copy, from an empty page: nothing duplicated or lost *)

Section Partition.
Context `{Platform}.

(** With ids in the order of creation, an id names at most one object. *)
Lemma ids_in_order_inj s i l l' :
  ids_in_order s → has_id (heap s) i l → has_id (heap s) i l' → l = l'.
Proof.
  unfold has_id. intros Hids Hl Hl'.
  destruct (heap s !! l) as [t|] eqn:E; [|done].
  destruct (heap s !! l') as [t'|] eqn:E'; [|done].
  apply Hids in E, E'. simpl in *. simplify_eq. lia.
Qed.

Lemma partitioned_length s :
  partitioned s →
  (length (todoList s) + length (completedList s))%nat = length (heap s).
Proof.
  unfold partitioned. intros Hp.
  by rewrite <-length_app, Hp, length_seq.
Qed.

Lemma partitioned_NoDup s : partitioned s → NoDup (todoList s ++ completedList s).
Proof. unfold partitioned. intros ->. apply NoDup_seq. Qed.

Lemma ids_in_order_mark_all b ls s s' :
  heap s' = mark_all b ls (heap s) → ids_in_order s → ids_in_order s'.
Proof.
  intros Hh Hids l t' Ht'.
  assert (id <$> heap s !! l = Some (id t')) as Hid.
  { by rewrite <-(id_mark_all b ls), <-Hh, Ht'. }
  destruct (heap s !! l) as [t|] eqn:E; [|done].
  injection Hid as <-. by apply Hids.
Qed.

Lemma documented_toggleCompleted s i :
  partitioned s ∧ ids_in_order s →
  partitioned (exec (toggleCompleted i) s) ∧
  ids_in_order (exec (toggleCompleted i) s).
Proof.
  intros [Hp Hids]. pose proof (partitioned_NoDup _ Hp) as Hnd.
  apply NoDup_app in Hnd as (Hnda & _ & Hndc).
  unfold partitioned in Hp.
  destruct (find (has_id (heap s) i) (todoList s)) as [l|] eqn:Hf.
  - destruct (exec_toggleCompleted_active _ _ _ Hf) as (Hh & Ht & Hc).
    apply find_Some in Hf as [Hl Hid]. split.
    + unfold partitioned. rewrite Hh, Ht, Hc, length_mark_all, <-Hp.
      rewrite (assoc_L (++)), (comm (++) _ [l]), (assoc_L (++)).
      f_equiv. rewrite (comm (++)).
      apply filter_out_one; [done| |done..].
      intros y _ Hy. by eapply ids_in_order_inj.
    + by eapply ids_in_order_mark_all.
  - destruct (find (has_id (heap s) i) (completedList s)) as [l|] eqn:Hg.
    + destruct (exec_toggleCompleted_done _ _ _ Hf Hg) as (Hh & Ht & Hc).
      apply find_Some in Hg as [Hl Hid]. split.
      * unfold partitioned. rewrite Hh, Ht, Hc, length_mark_all, <-Hp.
        rewrite <-(assoc_L (++)). f_equiv. rewrite (comm (++)).
        apply filter_out_one; [done| |done..].
        intros y _ Hy. by eapply ids_in_order_inj.
      * by eapply ids_in_order_mark_all.
    + unfold exec. by rewrite (toggleCompleted_absent _ _ Hf Hg).
Qed.

Lemma documented_addTodo s text priority dueDate :
  partitioned s ∧ ids_in_order s →
  partitioned (exec (Documented.addTodo text priority dueDate) s) ∧
  ids_in_order (exec (Documented.addTodo text priority dueDate) s).
Proof.
  intros [Hp Hids]. unfold exec. rewrite addTodo_documented_eq.
  pose proof (partitioned_length _ Hp) as Hlen.
  unfold partitioned, ids_in_order in *. simpl. split.
  - rewrite length_app. simpl. rewrite Nat.add_1_r, seq_S. simpl.
    rewrite <-Hp, <-!(assoc_L (++)). f_equiv. apply (comm (++)).
  - intros l t [Hl|[Hle [Hl <-]%list_lookup_singleton_Some]]%lookup_app_Some;
      [by apply Hids|].
    simpl. lia.
Qed.

(** However the user adds and toggles on a page that started empty, the
    documented copy keeps every object ever created in exactly one place of
    the two arrays. *)
Lemma documented_partitioned gs :
  partitioned (run DocumentedCopy gs first_visit).
Proof.
  assert (partitioned first_visit ∧ ids_in_order first_visit) as Hinit.
  { unfold first_visit. rewrite (exec_eq _ _ _ _ constructor_absent).
    split; [by unfold partitioned|]. intros l t Ht. by destruct l. }
  revert Hinit. generalize first_visit.
  induction gs as [|g gs IH]; intros s Hs; simpl; [by destruct Hs|].
  apply IH. destruct g; simpl.
  - by apply documented_addTodo.
  - by apply documented_toggleCompleted.
Qed.

End Partition.

(** ** Reachable states *)

Section Reachable.
Context `{Platform}.

Lemma reachable_first_visit c : reachable c first_visit.
Proof. by apply (reachable_new c None). Qed.

Lemma reachable_run c gs s : reachable c s → reachable c (run c gs s).
Proof.
  revert s. induction gs as [|g gs IH]; intros s Hs; simpl; [done|].
  apply IH. by apply reachable_handle.
Qed.

Lemma find_app {A} (P : A → Prop) `{∀ x, Decision (P x)} (l1 l2 : list A) :
  find P (l1 ++ l2) =
  match find P l1 with Some x => Some x | None => find P l2 end.
Proof.
  induction l1 as [|y l1 IH]; [done|].
  unfold find in *. simpl. destruct (decide (P y)); [done|].
  destruct (list_find P (l1 ++ l2)) as [[]|], (list_find P l1) as [[]|];
    simpl in *; congruence.
Qed.

End Reachable.

(** ** The scenarios of the specification *)

Section Scenarios.
Context `{Platform}.

(** One item added on an empty page, then toggled, then toggled again: the
    same in both copies. *)
Example scenario_add c :
  let s := run c [Add "Buy milk" "high" "2024-01-01"] first_visit in
  values (heap s) (todoList s) =
    [mkTodo 1 "Buy milk" false "high" "2024-01-01"] ∧
  values (heap s) (completedList s) = [].
Proof. by destruct c. Qed.

Example scenario_toggle c :
  let s := run c [Add "Buy milk" "high" "2024-01-01"; Toggle 1] first_visit in
  values (heap s) (todoList s) = [] ∧
  values (heap s) (completedList s) =
    [mkTodo 1 "Buy milk" true "high" "2024-01-01"].
Proof. by destruct c. Qed.

Example scenario_toggle_back c :
  let s := run c [Add "Buy milk" "high" "2024-01-01"; Toggle 1; Toggle 1]
             first_visit in
  values (heap s) (todoList s) =
    [mkTodo 1 "Buy milk" false "high" "2024-01-01"] ∧
  values (heap s) (completedList s) = [].
Proof. by destruct c. Qed.

(** The new item of each copy of [addTodo], in every state: a fresh object,
    not completed, at the tail of the active array; the documented copy
    counts both arrays for its id, src/js/todo.js the active one. *)
Lemma addTodo_documented_id s text priority dueDate :
  let s' := exec (Documented.addTodo text priority dueDate) s in
  heap s' = heap s ++
    [mkTodo (Z.of_nat (length (todoList s)) +
             Z.of_nat (length (completedList s)) + 1)
            text false priority dueDate] ∧
  todoList s' = todoList s ++ [length (heap s)] ∧
  completedList s' = completedList s.
Proof. unfold exec. by rewrite addTodo_documented_eq. Qed.

Lemma addTodo_js_id s text priority dueDate :
  let s' := exec (Js.addTodo text priority dueDate) s in
  heap s' = heap s ++
    [mkTodo (Z.of_nat (length (todoList s)) + 1)
            text false priority dueDate] ∧
  todoList s' = todoList s ++ [length (heap s)] ∧
  completedList s' = completedList s.
Proof. unfold exec. by rewrite addTodo_js_eq. Qed.

End Scenarios.

(** * The claims *)

(** Settles a decidable statement about a concrete state by evaluation. *)
Ltac by_evaluation :=
  lazymatch goal with
  | |- ?P => apply (bool_decide_unpack P); vm_compute; exact I
  end.

(** ** addTodo *)

(** C1 -- the id of a new item.  The documented copy gives the new item the
    id [active.length + completed.length + 1] in every state
    ([addTodo_documented_id]); [addTodo] of src/js/todo.js counts the active
    array only ([addTodo_js_id]).  Here are both on the scenario of the
    claim: two items (ids 1 and 2), a toggle of id 1, a third item.  The
    documented copy gives it the id 3, src/js/todo.js gives it the id 2,
    which the second item already has. *)
Theorem addTodo_third_id `{Platform} :
  let js := run SrcJs three_items first_visit in
  let doc := run DocumentedCopy three_items first_visit in
  values (heap doc) (todoList doc) =
    [mkTodo 2 "Walk dog" false "low" "2024-01-02";
     mkTodo 3 "Pay rent" false "medium" "2024-01-03"] ∧
  values (heap doc) (completedList doc) =
    [mkTodo 1 "Buy milk" true "high" "2024-01-01"] ∧
  values (heap js) (todoList js) =
    [mkTodo 2 "Walk dog" false "low" "2024-01-02";
     mkTodo 2 "Pay rent" false "medium" "2024-01-03"] ∧
  values (heap js) (completedList js) =
    [mkTodo 1 "Buy milk" true "high" "2024-01-01"].
Proof. by vm_compute. Qed.

(** C2 -- no item duplicated or lost.  The documented copy keeps it from an
    empty page on ([documented_partitioned]).  In src/js/todo.js the two
    active items of the scenario above share the id 2, and toggling that id
    takes both out of the active array and puts only the first one into the
    completed array: the third object ("Pay rent") is held by neither. *)
Theorem toggleCompleted_loses_item `{Platform} :
  let s := run SrcJs (three_items ++ [Toggle 2]) first_visit in
  heap s !! 2%nat = Some (mkTodo 2 "Pay rent" false "medium" "2024-01-03") ∧
  length (heap s) = 3%nat ∧
  todoList s = [] ∧
  completedList s = [0; 1]%nat.
Proof. by vm_compute. Qed.

(** ** toggleCompleted *)

(** C3 -- toggling twice.  In every state the controller can be in (either
    copy), for an id held by exactly one of the two arrays, let [l] be the
    item [toggleCompleted] acts on (the first one with that id).  After two
    calls [l] is in the array it was in and not in the other one, and the
    store is what it was: [completed] of [l] has its original value, and so
    has [completed] of every other item. *)
Theorem toggleCompleted_twice `{Platform} c s i l :
  reachable c s →
  (holds_id s (todoList s) i ∧ ¬ holds_id s (completedList s) i) ∨
  (¬ holds_id s (todoList s) i ∧ holds_id s (completedList s) i) →
  find (has_id (heap s) i) (todoList s ++ completedList s) = Some l →
  let s2 := exec (toggleCompleted i) (exec (toggleCompleted i) s) in
  (l ∈ todoList s2 ↔ l ∈ todoList s) ∧
  (l ∈ completedList s2 ↔ l ∈ completedList s) ∧
  completed <$> heap s2 !! l = completed <$> heap s !! l ∧
  (∀ l', l' ≠ l → completed <$> heap s2 !! l' = completed <$> heap s !! l') ∧
  heap s2 = heap s.
Proof.
  intros Hr Hone Hf s2.
  pose proof (reachable_consistent _ _ Hr) as Hs.
  assert (∀ x, x ∈ todoList s → x ∈ completedList s → False) as Hdisj.
  { intros x Hx. destruct Hs as [Ha Hc].
    by eapply (all_flagged_disjoint false). }
  rewrite find_app in Hf.
  destruct Hone as [[Hin Hout]|[Hout Hin]].
  - unfold holds_id in Hin. rewrite <-find_is_Some in Hin.
    destruct Hin as [l' Hl']. rewrite Hl' in Hf. injection Hf as ->.
    destruct (toggle_twice_active _ _ _ Hs Hl' Hout) as (Hh & Ht & Hc).
    apply find_Some in Hl' as [Hl _].
    fold s2 in Hh, Ht, Hc. rewrite Hh, Ht, Hc. split_and!; try done.
    rewrite elem_of_app, list_elem_of_singleton. naive_solver.
  - assert (find (has_id (heap s) i) (todoList s) = None) as Hn
      by by apply find_None.
    rewrite Hn in Hf.
    destruct (toggle_twice_done _ _ _ Hs Hout Hf) as (Hh & Ht & Hc).
    apply find_Some in Hf as [Hl _].
    fold s2 in Hh, Ht, Hc. rewrite Hh, Ht, Hc. split_and!; try done.
    rewrite elem_of_app, list_elem_of_singleton. naive_solver.
Qed.

Lemma toggleCompleted_twice_witness :
  let s := run SrcJs three_items first_visit in
  let s2 := exec (toggleCompleted 1) (exec (toggleCompleted 1) s) in
  (0%nat ∈ todoList s2 ↔ 0%nat ∈ todoList s) ∧
  (0%nat ∈ completedList s2 ↔ 0%nat ∈ completedList s) ∧
  completed <$> heap s2 !! 0%nat = completed <$> heap s !! 0%nat ∧
  (∀ l', l' ≠ 0%nat →
     completed <$> heap s2 !! l' = completed <$> heap s !! l') ∧
  heap s2 = heap s.
Proof.
  apply (toggleCompleted_twice SrcJs).
  - apply reachable_run, reachable_first_visit.
  - right. split; by_evaluation.
  - vm_compute. reflexivity.
Defined.

(** C5 -- a move, as the code does it.  For every state: an id found in
    the active array takes every entry with that id out of the active array
    (exactly the entry found when no other entry has the id), the entry
    found goes to the tail of the completed array, and every item of the
    completed array is then stamped [completed = true]; an id found in the
    completed array only goes the other way, and every item of the active
    array is stamped [completed = false]. *)
Theorem toggleCompleted_moves `{Platform} s i l :
  let s' := exec (toggleCompleted i) s in
  (find (has_id (heap s) i) (todoList s) = Some l →
     todoList s' = filter (λ t, ¬ has_id (heap s) i t) (todoList s) ∧
     (∀ pre post, todoList s = pre ++ l :: post →
        ¬ holds_id s (pre ++ post) i → todoList s' = pre ++ post) ∧
     completedList s' = completedList s ++ [l] ∧
     heap s' = mark_all true (completedList s') (heap s) ∧
     (∀ x t, x ∈ completedList s' → heap s' !! x = Some t →
        completed t = true)) ∧
  (find (has_id (heap s) i) (todoList s) = None →
   find (has_id (heap s) i) (completedList s) = Some l →
     completedList s' = filter (λ t, ¬ has_id (heap s) i t) (completedList s) ∧
     (∀ pre post, completedList s = pre ++ l :: post →
        ¬ holds_id s (pre ++ post) i → completedList s' = pre ++ post) ∧
     todoList s' = todoList s ++ [l] ∧
     heap s' = mark_all false (todoList s') (heap s) ∧
     (∀ x t, x ∈ todoList s' → heap s' !! x = Some t →
        completed t = false)).
Proof.
  assert (∀ ls pre post, ls = pre ++ l :: post → has_id (heap s) i l →
            ¬ holds_id s (pre ++ post) i →
            filter (λ t, ¬ has_id (heap s) i t) ls = pre ++ post) as Hone.
  { intros ls pre post -> Hid Hno.
    unfold holds_id in Hno. apply Forall_Exists_neg, Forall_app in Hno.
    destruct Hno as [Hpre Hpost].
    rewrite filter_app, filter_cons_False by tauto.
    by rewrite !filter_all. }
  assert (∀ b ls x t, x ∈ ls → mark_all b ls (heap s) !! x = Some t →
            completed t = b) as Hflag.
  { intros b ls x t Hx. rewrite lookup_mark_all_in by done.
    destruct (heap s !! x); [|done]. by intros [= <-]. }
  intros s'. split.
  - intros Hf.
    destruct (exec_toggleCompleted_active _ _ _ Hf) as (Hh & Ht & Hc).
    apply find_Some in Hf as [_ Hid].
    fold s' in Hh, Ht, Hc. rewrite Hh, Ht, Hc. split_and!; eauto.
  - intros Hf Hg.
    destruct (exec_toggleCompleted_done _ _ _ Hf Hg) as (Hh & Ht & Hc).
    apply find_Some in Hg as [_ Hid].
    fold s' in Hh, Ht, Hc. rewrite Hh, Ht, Hc. split_and!; eauto.
Qed.

Lemma toggleCompleted_moves_witness :
  let s := run DocumentedCopy three_items first_visit in
  let s' := exec (toggleCompleted 2) s in
  todoList s = [1; 2]%nat ∧
  todoList s' = [2]%nat ∧
  completedList s' = [0; 1]%nat ∧
  values (heap s') (completedList s') =
    [mkTodo 1 "Buy milk" true "high" "2024-01-01";
     mkTodo 2 "Walk dog" true "low" "2024-01-02"].
Proof.
  intros s s'.
  destruct (toggleCompleted_moves s 2 1%nat) as [Hactive _].
  destruct Hactive as (_ & Hone & Hc & _); [by vm_compute|].
  fold s' in Hone, Hc. split; [by vm_compute|]. split.
  - apply (Hone [] [2%nat]); [by vm_compute|by_evaluation].
  - split; [by rewrite Hc|by vm_compute].
Defined.

(** C5, as it was stated, fails where two entries of the active array have
    the same id: src/js/todo.js gets there by the scenario above (two active
    items with the id 2), and toggling that id removes both entries, not the
    single one that is moved. *)
Lemma toggleCompleted_removes_two :
  let s := run SrcJs three_items first_visit in
  let s' := exec (toggleCompleted 2) s in
  todoList s = [1; 2]%nat ∧
  find (has_id (heap s) 2) (todoList s) = Some 1%nat ∧
  todoList s' = [] ∧
  completedList s' = [0; 1]%nat.
Proof. by vm_compute. Qed.

(** C6 -- an id held by neither array.  [toggleCompleted] returns normally
    and the state is untouched: the arrays and the objects are as they
    were, the trace is the same (no call on the view, no write to the
    storage), the storage is the same. *)
Theorem toggleCompleted_unknown_id `{Platform} s i :
  ¬ holds_id s (todoList s) i → ¬ holds_id s (completedList s) i →
  toggleCompleted i s = (inr (), s).
Proof.
  intros Ha Hc. apply toggleCompleted_absent; by apply find_None.
Qed.

Lemma toggleCompleted_unknown_id_witness :
  let s := run SrcJs three_items first_visit in
  toggleCompleted 7 s = (inr (), s).
Proof.
  apply toggleCompleted_unknown_id; by_evaluation.
Defined.

(** C7 -- the field follows the arrays.  In every state the controller can
    be in, that is, after the constructor has loaded what was stored and
    after every [addTodo] and [toggleCompleted] since (either copy), every
    item of the active array has [completed = false] and every item of the
    completed array has [completed = true]. *)
Theorem completed_follows_arrays `{Platform} c s :
  reachable c s →
  (∀ l, l ∈ todoList s → completed <$> heap s !! l = Some false) ∧
  (∀ l, l ∈ completedList s → completed <$> heap s !! l = Some true).
Proof.
  intros [Ha Hc]%reachable_consistent.
  unfold all_flagged in *. by rewrite !Forall_forall in Ha, Hc.
Qed.

Lemma completed_follows_arrays_witness :
  let s := run SrcJs three_items first_visit in
  (∀ l, l ∈ todoList s → completed <$> heap s !! l = Some false) ∧
  (∀ l, l ∈ completedList s → completed <$> heap s !! l = Some true).
Proof.
  apply (completed_follows_arrays SrcJs).
  apply reachable_run, reachable_first_visit.
Defined.

(** ** saveTodos and loadTodos *)

(** C4 -- save, then load.  With a [JSON] that reads back what it writes,
    in every state the controller can be in (either copy), when [saveTodos]
    returns (the storage took the text), [loadTodos] returns too and the
    two arrays hold records equal, field by field and in the same order, to
    the ones they held: the same items, each in the array it was in. *)
Theorem save_then_load `{Platform} c s :
  JSONRoundTrip → reachable c s → outcome saveTodos s = inr () →
  let s2 := exec loadTodos (exec saveTodos s) in
  outcome loadTodos (exec saveTodos s) = inr () ∧
  values (heap s2) (todoList s2) = values (heap s) (todoList s) ∧
  values (heap s2) (completedList s2) = values (heap s) (completedList s).
Proof.
  intros Hrt Hr Hq. apply save_load; [done| |done].
  by eapply reachable_consistent.
Qed.

Lemma save_then_load_witness :
  let s := run SrcJs three_items first_visit in
  let s2 := exec loadTodos (exec saveTodos s) in
  outcome loadTodos (exec saveTodos s) = inr () ∧
  values (heap s2) (todoList s2) = values (heap s) (todoList s) ∧
  values (heap s2) (completedList s2) = values (heap s) (completedList s).
Proof.
  apply (save_then_load SrcJs).
  - apply browser_round_trip.
  - apply reachable_run, reachable_first_visit.
  - by vm_compute.
Defined.

(** C8 -- a stored text that does not parse.  When the stored string is not
    empty and [JSON.parse] rejects it, [loadTodos] throws the parser's
    error and changes nothing: the stored text stays, the arrays stay,
    nothing is rendered.  Nothing catches the error: the constructor ends
    with it before it binds the handlers.  The empty string is taken for
    nothing stored: [loadTodos] returns and changes nothing. *)
Theorem loadTodos_malformed_throws `{Platform} str :
  str ≠ "" → JSON_parse str = None →
  (∀ s, storage s = Some str → loadTodos s = (inl SyntaxError, s)) ∧
  constructor (page (Some str)) = (inl SyntaxError, page (Some str)) ∧
  (∀ s, storage s = Some "" → loadTodos s = (inr (), s)).
Proof.
  intros Hne Hp. split_and!.
  - intros s Hs. by apply (loadTodos_malformed _ str).
  - rewrite constructor_eq. by rewrite (loadTodos_malformed _ str).
  - apply loadTodos_empty.
Qed.

Lemma loadTodos_malformed_throws_witness :
  (∀ s, storage s = Some "{" → loadTodos s = (inl SyntaxError, s)) ∧
  constructor (page (Some "{")) = (inl SyntaxError, page (Some "{")) ∧
  (∀ s, storage s = Some "" → loadTodos s = (inr (), s)).
Proof.
  apply loadTodos_malformed_throws; [done|by vm_compute].
Defined.

(** C8, as it was stated, fails for the empty string: it is present and it
    is not valid JSON, and [loadTodos] takes it for nothing stored and
    returns normally, the arrays empty, the handlers bound.  And where the
    error is thrown (the text of one brace) it is the outcome of the
    constructor itself: the page is left without a controller. *)
Lemma loadTodos_empty_string :
  JSON_parse "" = None ∧
  loadTodos (page (Some "")) = (inr (), page (Some "")) ∧
  constructor (page (Some "")) =
    (inr (), mkState [] [] [] (Some "") [BindAddTodo; BindToggleCompleted]) ∧
  JSON_parse "{" = None ∧
  constructor (page (Some "{")) = (inl SyntaxError, page (Some "{")).
Proof. by vm_compute. Qed.

(** C9 -- nothing stored.  [loadTodos] returns and leaves the state as it
    is: no call on the view, the arrays as they were, which is empty where
    the constructor calls it; a controller constructed on a page with
    nothing stored has two empty arrays and has only bound its handlers. *)
Theorem loadTodos_nothing_stored `{Platform} s :
  storage s = None →
  loadTodos s = (inr (), s) ∧
  constructor (page None) =
    (inr (), mkState [] [] [] None [BindAddTodo; BindToggleCompleted]).
Proof.
  intros Hs. split; [by apply loadTodos_absent|apply constructor_absent].
Qed.

Lemma loadTodos_nothing_stored_witness :
  loadTodos (page None) = (inr (), page None) ∧
  constructor (page None) =
    (inr (), mkState [] [] [] None [BindAddTodo; BindToggleCompleted]).
Proof.
  apply (loadTodos_nothing_stored (page None)). reflexivity.
Defined.

(** C10 -- [saveTodos] is read-only on the controller.  In every state,
    whether the storage takes the text or throws, the objects and the two
    arrays are after the call what they were before it. *)
Theorem saveTodos_frame `{Platform} s :
  heap (exec saveTodos s) = heap s ∧
  todoList (exec saveTodos s) = todoList s ∧
  completedList (exec saveTodos s) = completedList s.
Proof. done. Qed.

(** * Further properties of the code *)

(** ** The view shows the arrays *)

Lemma shown_todos_app tr tr' :
  shown_todos (tr ++ tr') =
  match shown_todos tr' with Some ts => Some ts | None => shown_todos tr end.
Proof.
  unfold shown_todos. rewrite omap_app, last_app.
  by destruct (last (omap _ tr')).
Qed.

Lemma shown_completed_app tr tr' :
  shown_completed (tr ++ tr') =
  match shown_completed tr' with
  | Some ts => Some ts
  | None => shown_completed tr
  end.
Proof.
  unfold shown_completed. rewrite omap_app, last_app.
  by destruct (last (omap _ tr')).
Qed.

Lemma values_alloc b h ts ls :
  all_flagged b h ls → values (h ++ ts) ls = values h ls.
Proof.
  unfold all_flagged, values. induction 1 as [|l ls Hl _ IH]; [done|].
  simpl. destruct (h !! l) as [t|] eqn:E; [|done].
  rewrite (lookup_app_l_Some _ _ _ _ E). simpl. by f_equal.
Qed.

Section InView.
Context `{Platform}.

Lemma in_view_saveTodos s : in_view s → in_view (exec saveTodos s).
Proof.
  unfold in_view, exec. rewrite saveTodos_eq. simpl.
  by rewrite shown_todos_app, shown_completed_app.
Qed.

Lemma in_view_toggleCompleted s i : in_view s → in_view (exec (toggleCompleted i) s).
Proof.
  intros Hs. unfold exec.
  destruct (find (has_id (heap s) i) (todoList s)) as [l|] eqn:Hf.
  - rewrite (toggleCompleted_active _ _ _ Hf). apply in_view_saveTodos.
    unfold in_view. simpl.
    by rewrite shown_todos_app, shown_completed_app.
  - destruct (find (has_id (heap s) i) (completedList s)) as [l|] eqn:Hg.
    + rewrite (toggleCompleted_done _ _ _ Hf Hg). apply in_view_saveTodos.
      unfold in_view. simpl.
      by rewrite shown_todos_app, shown_completed_app.
    + by rewrite (toggleCompleted_absent _ _ Hf Hg).
Qed.

Lemma in_view_addTodo c s text priority dueDate :
  consistent s → in_view s →
  in_view (exec (addTodo c text priority dueDate) s).
Proof.
  intros [_ Hc] [_ Hv]. unfold exec.
  destruct (addTodo_eq c s text priority dueDate) as [n ->].
  apply in_view_saveTodos. unfold in_view. simpl.
  rewrite shown_todos_app, shown_completed_app. simpl.
  split; [done|]. by rewrite (values_alloc true).
Qed.

Lemma in_view_constructor stored s :
  constructor (page stored) = (inr (), s) → in_view s.
Proof.
  rewrite constructor_eq.
  destruct stored as [str|]; [|rewrite loadTodos_absent by done].
  - destruct (decide (str = "")) as [->|Hne];
      [rewrite loadTodos_empty by done; by intros [= <-]|].
    destruct (JSON_parse str) as [ts|] eqn:Hp.
    + rewrite (loadTodos_parsed _ str ts) by done. simpl.
      by intros [= <-].
    + by rewrite (loadTodos_malformed _ str).
  - by intros [= <-].
Qed.

Lemma in_view_reachable c s : reachable c s → in_view s.
Proof.
  induction 1 as [stored s Hc|g s Hr IH].
  - by eapply in_view_constructor.
  - destruct g; simpl.
    + apply in_view_addTodo; [by eapply reachable_consistent|done].
    + by apply in_view_toggleCompleted.
Qed.

End InView.

(** X1 -- the view shows the arrays.  In every state the controller can be in
    (either copy), the items last handed to [displayTodos] are the items of
    the active array as they are now, and the same for [displayCompleted]
    and the completed array; an array that was never displayed is empty. *)
Theorem view_in_sync `{Platform} c s : reachable c s → in_view s.
Proof. apply in_view_reachable. Qed.

Lemma view_in_sync_witness :
  in_view (run SrcJs three_items first_visit).
Proof.
  apply (view_in_sync SrcJs), reachable_run, reachable_first_visit.
Defined.

(** ** Objects are created and flagged, never edited or dropped *)

Lemma same_item_refl t : same_item t t.
Proof. done. Qed.



Section Objects.
Context `{Platform}.


End Objects.



(** ** What a handler leaves in the storage *)

Section Writes.
Context `{Platform}.

Lemma saveTodos_outcome s :
  match outcome saveTodos s with
  | inr _ => storage (exec saveTodos s) = Some (saved_text (exec saveTodos s))
  | inl e => e = QuotaExceededError ∧ storage (exec saveTodos s) = storage s
  end.
Proof.
  unfold outcome, exec. rewrite saveTodos_eq. simpl.
  unfold saved_text at 1 3. simpl. fold (saved_text s).
  by destruct (quota (saved_text s)).
Qed.

(** Every handler that does anything ends with [saveTodos], and does not
    touch the storage before. *)
Lemma handle_saves c g s :
  effective g s →
  ∃ s1, handle c g s = saveTodos s1 ∧ storage s1 = storage s.
Proof.
  destruct g as [text priority dueDate|i]; simpl.
  - intros _. destruct (addTodo_eq c s text priority dueDate) as [n ->].
    by eexists.
  - intros Heff.
    destruct (find (has_id (heap s) i) (todoList s)) as [x|] eqn:Hf.
    { rewrite (toggleCompleted_active _ _ _ Hf). by eexists. }
    destruct (find (has_id (heap s) i) (completedList s)) as [x|] eqn:Hg.
    { rewrite (toggleCompleted_done _ _ _ Hf Hg). by eexists. }
    apply find_None in Hf, Hg. unfold holds_id in Heff. tauto.
Qed.

Lemma handle_stores c g s :
  effective g s →
  match outcome (handle c g) s with
  | inr _ =>
      storage (exec (handle c g) s) = Some (saved_text (exec (handle c g) s))
  | inl e =>
      e = QuotaExceededError ∧ storage (exec (handle c g) s) = storage s
  end.
Proof.
  intros Heff. destruct (handle_saves c g s Heff) as (s1 & Hs1 & Hst).
  pose proof (saveTodos_outcome s1) as Ho.
  unfold exec, outcome in *. rewrite Hs1, <-Hst. done.
Qed.

End Writes.

(** X3 -- a handler writes what the arrays hold, or throws.  A handler that
    has something to do (an item to add, an id one of the arrays holds)
    ends in one of two ways: it returns, and the storage holds the text of
    the active array followed by the completed array as they are now; or it
    throws [QuotaExceededError], the only error a handler throws, and the
    storage holds what it held. *)
Theorem handle_outcome `{Platform} c g s :
  effective g s →
  let s' := exec (handle c g) s in
  match outcome (handle c g) s with
  | inr _ => storage s' = Some (saved_text s')
  | inl e => e = QuotaExceededError ∧ storage s' = storage s
  end.
Proof. intros Heff. by apply handle_stores. Qed.

Lemma handle_outcome_witness :
  let s := run SrcJs three_items first_visit in
  let s' := exec (handle SrcJs (Toggle 1)) s in
  match outcome (handle SrcJs (Toggle 1)) s with
  | inr _ => storage s' = Some (saved_text s')
  | inl e => e = QuotaExceededError ∧ storage s' = storage s
  end.
Proof.
  apply (handle_outcome SrcJs (Toggle 1)). right. by_evaluation.
Defined.

(** X4 -- a refused write is not undone.  When [addTodo] throws (the storage
    refused the text), the new item is in the active array all the same and
    the view was handed the array with it, while the storage holds what it
    held: the item is on the screen and will not be there after a reload. *)
Theorem addTodo_write_refused `{Platform} c s text priority dueDate e :
  outcome (addTodo c text priority dueDate) s = inl e →
  let s' := exec (addTodo c text priority dueDate) s in
  e = QuotaExceededError ∧
  storage s' = storage s ∧
  todoList s' = todoList s ++ [length (heap s)] ∧
  (∃ n, heap s' = heap s ++ [mkTodo n text false priority dueDate]) ∧
  shown_todos (trace s') = Some (values (heap s') (todoList s')).
Proof.
  unfold outcome, exec.
  destruct (addTodo_eq c s text priority dueDate) as [n ->].
  rewrite saveTodos_eq. simpl.
  destruct (quota _); [done|]. intros [= <-].
  rewrite !shown_todos_app. simpl. eauto 10.
Qed.

Lemma addTodo_write_refused_witness :
  let s := first_visit (H:=full_storage) in
  let s' := exec (addTodo (H:=full_storage) SrcJs
                    "Buy milk" "high" "2024-01-01") s in
  QuotaExceededError = QuotaExceededError ∧
  storage s' = storage s ∧
  todoList s' = todoList s ++ [length (heap s)] ∧
  (∃ n, heap s' = heap s ++ [mkTodo n "Buy milk" false "high" "2024-01-01"]) ∧
  shown_todos (trace s') = Some (values (heap s') (todoList s')).
Proof.
  apply (addTodo_write_refused (H:=full_storage) SrcJs). reflexivity.
Defined.

(** ** A page load *)

Section PageLoad.
Context `{Platform}.

(** The constructor on a stored text that parses: the records are the
    objects, in the order of the text; the active array holds the ones not
    completed, the completed array the others; both are displayed, then the
    handlers are bound. *)
Lemma constructor_parsed str ts :
  str ≠ "" → JSON_parse str = Some ts →
  let active := filter (λ t, completed t = false) ts in
  let done := filter (λ t, completed t = true) ts in
  ∃ tl cl,
    constructor (page (Some str)) =
    (inr (), mkState ts tl cl (Some str)
               [DisplayTodos active; DisplayCompleted done;
                BindAddTodo; BindToggleCompleted]) ∧
    tl = filter (λ l, ¬ is_completed ts l) (seq 0 (length ts)) ∧
    cl = filter (λ l, is_completed ts l) (seq 0 (length ts)) ∧
    values ts tl = active ∧ values ts cl = done.
Proof.
  intros Hne Hp active done.
  assert (values ts (filter (λ l, ¬ is_completed ts l) (seq 0 (length ts)))
          = active) as Ha.
  { apply (values_parsed _ _ [] ts). intros l t Ht.
    unfold is_completed. simpl in Ht. rewrite Ht. simpl.
    destruct (completed t); split; congruence. }
  assert (values ts (filter (λ l, is_completed ts l) (seq 0 (length ts)))
          = done) as Hd.
  { apply (values_parsed _ _ [] ts). intros l t Ht.
    unfold is_completed. simpl in Ht. rewrite Ht. simpl.
    split; congruence. }
  do 2 eexists. split_and!; [|reflexivity|reflexivity|done|done].
  rewrite constructor_eq, (loadTodos_parsed _ str ts) by done.
  simpl. by rewrite Ha, Hd.
Qed.

End PageLoad.

(** X5 -- what a page load makes of a stored text.  When the stored text is
    not empty and parses to the records [ts], the constructor returns; the
    active array holds the records with [completed = false], the completed
    array the ones with [completed = true], each in the order of the text;
    each array is displayed once, the active one first, even when the text
    is that of the empty array; then the two handlers are bound; the stored
    text is not rewritten. *)
Theorem constructor_partitions `{Platform} str ts :
  str ≠ "" → JSON_parse str = Some ts →
  ∃ s, constructor (page (Some str)) = (inr (), s) ∧
       values (heap s) (todoList s) = filter (λ t, completed t = false) ts ∧
       values (heap s) (completedList s)
         = filter (λ t, completed t = true) ts ∧
       trace s = [DisplayTodos (filter (λ t, completed t = false) ts);
                  DisplayCompleted (filter (λ t, completed t = true) ts);
                  BindAddTodo; BindToggleCompleted] ∧
       storage s = Some str.
Proof.
  intros Hne Hp.
  destruct (constructor_parsed str ts Hne Hp) as (tl & cl & -> & _ & _ & ? & ?).
  eexists. split; [reflexivity|]. done.
Qed.

Lemma constructor_partitions_witness :
  let ts := [mkTodo 1 "Buy milk" true "high" "2024-01-01";
             mkTodo 2 "Walk dog" false "low" "2024-01-02";
             mkTodo 2 "Pay rent" true "medium" "2024-01-03"] in
  let str := Json.stringify ts in
  ∃ s, constructor (page (Some str)) = (inr (), s) ∧
       values (heap s) (todoList s) = filter (λ t, completed t = false) ts ∧
       values (heap s) (completedList s)
         = filter (λ t, completed t = true) ts ∧
       trace s = [DisplayTodos (filter (λ t, completed t = false) ts);
                  DisplayCompleted (filter (λ t, completed t = true) ts);
                  BindAddTodo; BindToggleCompleted] ∧
       storage s = Some str.
Proof.
  apply constructor_partitions; by vm_compute.
Defined.

(** ** Reloading the page *)

Lemma partition_values s :
  consistent s →
  let ts := values (heap s) (todoList s ++ completedList s) in
  filter (λ t, completed t = false) ts = values (heap s) (todoList s) ∧
  filter (λ t, completed t = true) ts = values (heap s) (completedList s).
Proof.
  intros [Ha Hc]. apply values_flagged in Ha, Hc. simpl.
  rewrite values_app, !filter_app. split.
  - rewrite filter_all, filter_none, app_nil_r; [done| |done].
    eapply Forall_impl; [exact Hc|]. simpl. by intros t ->.
  - rewrite filter_none, filter_all; [done|done|].
    eapply Forall_impl; [exact Ha|]. simpl. by intros t ->.
Qed.

(** X6 -- a reload after a handler that returned.  With a [JSON] that reads
    back what it writes: in every state the controller can be in (either
    copy), when a handler that has something to do returns, a controller
    constructed on the storage as it is then (the page reloaded) holds, in
    each of its two arrays, records equal to the ones the array holds now,
    in the same order. *)
Theorem reload_restores `{Platform} c g s :
  JSONRoundTrip → reachable c s → effective g s →
  outcome (handle c g) s = inr () →
  let s' := exec (handle c g) s in
  ∃ s2, constructor (page (storage s')) = (inr (), s2) ∧
        values (heap s2) (todoList s2) = values (heap s') (todoList s') ∧
        values (heap s2) (completedList s2)
          = values (heap s') (completedList s').
Proof.
  intros [Hrt Hne] Hr Heff Hok s'.
  pose proof (handle_stores c g s Heff) as Ho.
  rewrite Hok in Ho. fold s' in Ho.
  assert (consistent s') as Hs'.
  { eapply (reachable_consistent c). by apply reachable_handle. }
  destruct (partition_values s' Hs') as [Ha Hd].
  destruct (constructor_parsed (saved_text s') _ (Hne _) (Hrt _))
    as (tl & cl & Hc & _ & _ & Htl & Hcl).
  rewrite Ho. eexists. split; [exact Hc|]. simpl.
  by rewrite Htl, Hcl, Ha, Hd.
Qed.

Lemma reload_restores_witness :
  let s := run SrcJs three_items first_visit in
  let s' := exec (handle SrcJs (Toggle 2)) s in
  ∃ s2, constructor (page (storage s')) = (inr (), s2) ∧
        values (heap s2) (todoList s2) = values (heap s') (todoList s') ∧
        values (heap s2) (completedList s2)
          = values (heap s') (completedList s').
Proof.
  apply (reload_restores SrcJs (Toggle 2)).
  - apply browser_round_trip.
  - apply reachable_run, reachable_first_visit.
  - left. by_evaluation.
  - by vm_compute.
Defined.

(** ** The ids of the documented copy, through reloads *)

Lemma numbered_perm ks ks' : ks ≡ₚ ks' → numbered ks → numbered ks'.
Proof.
  intros Hp [Hnd Hb]. split; [by rewrite <-Hp|].
  rewrite <-Hp. eapply Forall_impl; [exact Hb|]. simpl.
  intros i. by rewrite Hp.
Qed.

Lemma numbered_snoc ks :
  numbered ks → numbered (ks ++ [Z.of_nat (length ks) + 1]).
Proof.
  intros [Hnd Hb]. split.
  - apply NoDup_app. split_and!; [done| |apply NoDup_singleton].
    intros i Hi ->%list_elem_of_singleton.
    rewrite Forall_forall in Hb. apply Hb in Hi. lia.
  - rewrite length_app. simpl. apply Forall_app. split.
    + eapply Forall_impl; [exact Hb|]. simpl. lia.
    + apply Forall_singleton. lia.
Qed.

Lemma values_all h : values h (seq 0 (length h)) = h.
Proof.
  induction h as [|t h IH] using rev_ind; [done|].
  rewrite length_app. simpl. rewrite Nat.add_1_r, seq_S. simpl.
  unfold values in *. rewrite omap_app. simpl.
  rewrite lookup_app_r, Nat.sub_diag by done. simpl.
  f_equal. rewrite <-IH at 2. apply list_omap_ext.
  apply Forall2_same_length_lookup_2; [done|].
  intros i x y Hx Hy. assert (x = y) as <- by congruence.
  apply lookup_seq in Hx as [-> Hi]. simpl.
  by rewrite lookup_app_l by done.
Qed.

Lemma items_perm s : partitioned s → items s ≡ₚ heap s.
Proof.
  unfold partitioned, items, values. intros ->. apply reflexive_eq, values_all.
Qed.

Lemma numbered_unique h i l l' :
  NoDup (id <$> h) → has_id h i l → has_id h i l' → l = l'.
Proof.
  unfold has_id. rewrite <-!list_lookup_fmap. intros Hnd Hl Hl'.
  by eapply NoDup_lookup.
Qed.

Lemma ids_mark_all b ls h : id <$> mark_all b ls h = id <$> h.
Proof.
  apply list_eq. intros l. rewrite !list_lookup_fmap. apply id_mark_all.
Qed.

Section Numbered.
Context `{Platform}.

Lemma kept_items s : kept s → numbered (id <$> items s).
Proof.
  intros (Hp & Hn & _). eapply numbered_perm; [|exact Hn].
  by rewrite (items_perm s Hp).
Qed.

Lemma kept_saveTodos s :
  partitioned s → numbered (id <$> heap s) → stored_numbered (storage s) →
  kept (exec saveTodos s).
Proof.
  intros Hp Hn Hst. split_and!; [done..|].
  unfold exec. rewrite saveTodos_eq. simpl.
  destruct (quota _); [|done].
  eexists. split; [reflexivity|]. by apply (kept_items s).
Qed.

Lemma kept_toggleCompleted s i : kept s → kept (exec (toggleCompleted i) s).
Proof.
  intros (Hp & Hn & Hst). pose proof (partitioned_NoDup _ Hp) as Hnd.
  apply NoDup_app in Hnd as (Hnda & _ & Hndc).
  unfold partitioned in Hp. unfold exec.
  destruct (find (has_id (heap s) i) (todoList s)) as [l|] eqn:Hf.
  - rewrite (toggleCompleted_active _ _ _ Hf).
    apply find_Some in Hf as [Hl Hid].
    apply kept_saveTodos; simpl; [|by rewrite ids_mark_all|done].
    unfold partitioned. simpl. rewrite length_mark_all, <-Hp.
    rewrite (assoc_L (++)), (comm (++) _ [l]), (assoc_L (++)).
    f_equiv. rewrite (comm (++)).
    apply filter_out_one; [done| |done..].
    intros y _ Hy. destruct Hn as [Hn _]. by eapply numbered_unique.
  - destruct (find (has_id (heap s) i) (completedList s)) as [l|] eqn:Hg.
    + rewrite (toggleCompleted_done _ _ _ Hf Hg).
      apply find_Some in Hg as [Hl Hid].
      apply kept_saveTodos; simpl; [|by rewrite ids_mark_all|done].
      unfold partitioned. simpl. rewrite length_mark_all, <-Hp.
      rewrite <-(assoc_L (++)). f_equiv. rewrite (comm (++)).
      apply filter_out_one; [done| |done..].
      intros y _ Hy. destruct Hn as [Hn _]. by eapply numbered_unique.
    + by rewrite (toggleCompleted_absent _ _ Hf Hg).
Qed.

Lemma kept_addTodo s text priority dueDate :
  kept s → kept (exec (Documented.addTodo text priority dueDate) s).
Proof.
  intros (Hp & Hn & Hst). unfold exec. rewrite addTodo_documented_eq.
  pose proof (partitioned_length _ Hp) as Hlen.
  apply kept_saveTodos; simpl; [| |done].
  - unfold partitioned in *. simpl.
    rewrite length_app. simpl. rewrite Nat.add_1_r, seq_S. simpl.
    rewrite <-Hp, <-!(assoc_L (++)). f_equiv. apply (comm (++)).
  - rewrite fmap_app. simpl.
    replace (Z.of_nat (length (todoList s)) +
             Z.of_nat (length (completedList s)) + 1)
      with (Z.of_nat (length (id <$> heap s)) + 1)
      by (rewrite length_fmap; lia).
    by apply numbered_snoc.
Qed.

Lemma kept_load_page stored :
  JSONRoundTrip → stored_numbered stored →
  ∃ s, load_page stored = Alive s ∧ kept s.
Proof.
  intros [Hrt Hne] Hst. unfold load_page.
  destruct stored as [str|].
  - destruct Hst as (ts & -> & Hn).
    destruct (constructor_parsed _ ts (Hne _) (Hrt _))
      as (tl & cl & -> & -> & -> & _ & _).
    eexists. split; [reflexivity|]. split_and!; simpl.
    + unfold partitioned. simpl.
      rewrite <-(filter_app_complement (λ l, ¬ is_completed ts l)
                   (seq 0 (length ts))) at 3.
      f_equiv. apply reflexive_eq, list_filter_iff.
      intros l. split; [tauto|]. apply dec_stable.
    + done.
    + by exists ts.
  - rewrite constructor_absent. eexists. split; [reflexivity|].
    split_and!; simpl; [by unfold partitioned| |done].
    split; [apply NoDup_nil_2|apply Forall_nil_2].
Qed.

Lemma kept_browse ns s :
  JSONRoundTrip → kept s →
  ∃ s', browse DocumentedCopy ns (Alive s) = Alive s' ∧ kept s'.
Proof.
  intros Hrt. revert s. induction ns as [|n ns IH]; intros s Hs; simpl.
  - by exists s.
  - destruct n as [[text priority dueDate|i]|]; simpl.
    + apply IH. by apply kept_addTodo.
    + apply IH. by apply kept_toggleCompleted.
    + destruct Hs as (_ & _ & Hst).
      destruct (kept_load_page _ Hrt Hst) as (s1 & -> & Hs1).
      by apply IH.
Qed.

End Numbered.

(** X7 -- the ids of the documented copy.  With a [JSON] that reads back
    what it writes: from a first visit on, whatever the user adds and
    toggles and however often the page is reloaded (writes refused or not),
    every load of the page gives a controller, and the ids of the items it
    holds are distinct and are the numbers from 1 to the number of items:
    the count-based id of the documented [addTodo] never gives an id
    twice. *)
Theorem documented_ids_numbered `{Platform} ns :
  JSONRoundTrip →
  ∃ s, browse DocumentedCopy ns (Alive first_visit) = Alive s ∧
       NoDup (id <$> items s) ∧
       Forall (λ t, 1 ≤ id t ≤ Z.of_nat (length (items s))) (items s).
Proof.
  intros Hrt.
  destruct (kept_browse ns first_visit Hrt) as (s & Hs & Hk).
  { unfold first_visit. rewrite (exec_eq _ _ _ _ constructor_absent).
    split_and!; simpl; [by unfold partitioned| |done].
    split; [apply NoDup_nil_2|apply Forall_nil_2]. }
  exists s. split; [done|].
  destruct (kept_items s Hk) as [Hnd Hb]. split; [done|].
  rewrite length_fmap in Hb. by apply Forall_fmap in Hb.
Qed.

Lemma documented_ids_numbered_witness :
  ∃ s, browse DocumentedCopy
         [Do (Add "Buy milk" "high" "2024-01-01"); Do (Toggle 1); Reload;
          Do (Add "Walk dog" "low" "2024-01-02")]
         (Alive first_visit) = Alive s ∧
       NoDup (id <$> items s) ∧
       Forall (λ t, 1 ≤ id t ≤ Z.of_nat (length (items s))) (items s).
Proof.
  apply documented_ids_numbered, browser_round_trip.
Defined.

(** ** The page *)

Lemma lookup_values b h ls k l :
  all_flagged b h ls → ls !! k = Some l → values h ls !! k = h !! l.
Proof.
  unfold all_flagged, values. intros Hf. revert k.
  induction Hf as [|x ls Hx _ IH]; intros k Hk; [done|].
  simpl. destruct (h !! x) as [t|] eqn:E; [|done].
  destruct k as [|k]; simpl in *; [by injection Hk as <-|by apply IH].
Qed.

Lemma length_values b h ls : all_flagged b h ls → length (values h ls) = length ls.
Proof.
  unfold all_flagged, values. induction 1 as [|x ls Hx _ IH]; [done|].
  simpl. destruct (h !! x); [|done]. simpl. by f_equal.
Qed.

Section OnScreen.
Context `{Platform} `{Strings}.

Lemma fire_change_createToDoElement t b :
  fire_change (createToDoElement t b) = toggleCompleted (id t).
Proof. reflexivity. Qed.

(** What an event does to the controller: nothing, or one call of a
    handler. *)
Lemma on_controller c e p :
  controller (on c e p).2 = controller p ∨
  ∃ g, controller (on c e p).2 = exec (handle c g) (controller p).
Proof.
  assert (∀ row s, fire_change row s = (inr (), s) ∨
                   ∃ i, fire_change row s = toggleCompleted i s) as Hfire.
  { intros row s. unfold fire_change.
    destruct (change <$> head (children row)) as [[i|]|]; eauto. }
  assert (controller (handleToDoInput c (addTodo c) p).2 = controller p ∨
          ∃ g, controller (handleToDoInput c (addTodo c) p).2
               = exec (handle c g) (controller p)) as Hsubmit.
  { unfold handleToDoInput. repeat case_decide; try by left.
    right.
    exists (Add (trim (todoInput (form p))) (prioritySelect (form p))
              (dueDateInput (form p))).
    simpl. unfold exec. by destruct (addTodo c _ _ _ _) as [[e'|[]] s']. }
  destruct e as [v|v|v| |key|k|k]; simpl; try by left.
  - done.
  - case_decide; [done|by left].
  - destruct (todoListElement _ ≫= _) as [row|]; [|by left].
    destruct (Hfire row (controller p)) as [->|[i Hi]]; [by left|].
    right. exists (Toggle i). simpl. unfold exec. rewrite Hi.
    by destruct (toggleCompleted i _).
  - destruct (completedListElement _ ≫= _) as [row|]; [|by left].
    destruct (Hfire row (controller p)) as [->|[i Hi]]; [by left|].
    right. exists (Toggle i). simpl. unfold exec. rewrite Hi.
    by destruct (toggleCompleted i _).
Qed.

Lemma on_screen_reachable c p : on_screen c p → reachable c (controller p).
Proof.
  induction 1 as [stored s f Hc|e p _ IH]; simpl.
  - by eapply reachable_new.
  - destruct (on_controller c e p) as [->|[g ->]]; [done|].
    by apply reachable_handle.
Qed.

End OnScreen.

Section Rows.
Context `{Platform} `{Strings}.

Lemma on_submits c e p :
  submits e → on c e p = handleToDoInput c (addTodo c) p.
Proof. by intros [->| ->]. Qed.

Lemma rows_of_array b h ls shown :
  all_flagged b h ls →
  match shown with Some ts => ts = values h ls | None => ls = [] end →
  (∀ k l, ls !! k = Some l →
     ∃ t, h !! l = Some t ∧ completed t = b ∧
          shown ≫= (.!! k) = Some t) ∧
  (∀ k t, shown ≫= (.!! k) = Some t → is_Some (ls !! k)).
Proof.
  intros Hf Hs. split.
  - intros k l Hk.
    assert (completed <$> h !! l = Some b) as Hl.
    { unfold all_flagged in Hf. rewrite Forall_lookup in Hf. by eapply Hf. }
    destruct (h !! l) as [t|] eqn:E; [|done]. injection Hl as Hl.
    exists t. split_and!; [done..|].
    destruct shown as [ts|]; [|by subst].
    subst ts. simpl. by rewrite (lookup_values b _ _ _ l).
  - intros k t Hk. destruct shown as [ts|]; [|done]. subst ts.
    simpl in Hk. apply lookup_lt_is_Some_2.
    rewrite <-(length_values b h) by done. by eapply lookup_lt_Some.
Qed.

Lemma row_of_todo c p k l :
  on_screen c p → todoList (controller p) !! k = Some l →
  ∃ t, heap (controller p) !! l = Some t ∧ completed t = false ∧
       todoListElement (trace (controller p)) ≫= (.!! k)
         = Some (createToDoElement t false).
Proof.
  intros Hp%on_screen_reachable Hk.
  destruct (reachable_consistent _ _ Hp) as [Ha _].
  destruct (in_view_reachable _ _ Hp) as [Hva _].
  destruct (rows_of_array false _ _ _ Ha Hva) as [Ha1 _].
  destruct (Ha1 k l Hk) as (t & Ht & Hb & Hs).
  exists t. split_and!; [done..|].
  unfold todoListElement, displayTodos.
  destruct (shown_todos _) as [ts|]; [|done]. simpl in *.
  by rewrite list_lookup_fmap, Hs.
Qed.

Lemma row_of_completed c p k l :
  on_screen c p → completedList (controller p) !! k = Some l →
  ∃ t, heap (controller p) !! l = Some t ∧ completed t = true ∧
       completedListElement (trace (controller p)) ≫= (.!! k)
         = Some (createToDoElement t true).
Proof.
  intros Hp%on_screen_reachable Hk.
  destruct (reachable_consistent _ _ Hp) as [_ Hc].
  destruct (in_view_reachable _ _ Hp) as [_ Hvc].
  destruct (rows_of_array true _ _ _ Hc Hvc) as [Hc1 _].
  destruct (Hc1 k l Hk) as (t & Ht & Hb & Hs).
  exists t. split_and!; [done..|].
  unfold completedListElement, displayCompleted.
  destruct (shown_completed _) as [ts|]; [|done]. simpl in *.
  by rewrite list_lookup_fmap, Hs.
Qed.

Lemma rows_bounded c p :
  on_screen c p →
  (∀ k row, todoListElement (trace (controller p)) ≫= (.!! k) = Some row →
     is_Some (todoList (controller p) !! k)) ∧
  (∀ k row, completedListElement (trace (controller p)) ≫= (.!! k) = Some row →
     is_Some (completedList (controller p) !! k)).
Proof.
  intros Hp%on_screen_reachable.
  destruct (reachable_consistent _ _ Hp) as [Ha Hc].
  destruct (in_view_reachable _ _ Hp) as [Hva Hvc].
  destruct (rows_of_array false _ _ _ Ha Hva) as [_ Ha2].
  destruct (rows_of_array true _ _ _ Hc Hvc) as [_ Hc2].
  unfold todoListElement, completedListElement, displayTodos, displayCompleted.
  split.
  - intros k row Hk. destruct (shown_todos _) as [ts|]; [|done].
    simpl in *. rewrite list_lookup_fmap in Hk.
    destruct (ts !! k) as [t|] eqn:E; [|done]. by apply (Ha2 k t).
  - intros k row Hk. destruct (shown_completed _) as [ts|]; [|done].
    simpl in *. rewrite list_lookup_fmap in Hk.
    destruct (ts !! k) as [t|] eqn:E; [|done]. by apply (Hc2 k t).
Qed.

End Rows.

(** X8 -- the rows are the items.  On every page a user can be on (either
    copy), the item at position [k] of the active array has the row at
    position [k] of the active list, created from the item as it is now and
    with a checkbox whose [checked] is the [completed] of the item (false);
    the same for the completed array and list, with true; and a list has no
    row beyond the items of its array. *)
Theorem rows_mirror_arrays `{Platform} `{Strings} c p :
  on_screen c p →
  let s := controller p in
  (∀ k l, todoList s !! k = Some l →
     ∃ t, heap s !! l = Some t ∧
          todoListElement (trace s) ≫= (.!! k)
            = Some (createToDoElement t (completed t))) ∧
  (∀ k l, completedList s !! k = Some l →
     ∃ t, heap s !! l = Some t ∧
          completedListElement (trace s) ≫= (.!! k)
            = Some (createToDoElement t (completed t))) ∧
  (∀ k row, todoListElement (trace s) ≫= (.!! k) = Some row →
     is_Some (todoList s !! k)) ∧
  (∀ k row, completedListElement (trace s) ≫= (.!! k) = Some row →
     is_Some (completedList s !! k)).
Proof.
  intros Hp. simpl. destruct (rows_bounded c p Hp) as [Hba Hbc].
  split_and!; [| |done..].
  - intros k l Hk. destruct (row_of_todo c p k l Hp Hk) as (t & Ht & Hb & Hrow).
    exists t. by rewrite Hb.
  - intros k l Hk.
    destruct (row_of_completed c p k l Hp Hk) as (t & Ht & Hb & Hrow).
    exists t. by rewrite Hb.
Qed.

Lemma rows_mirror_arrays_witness :
  let p := use SrcJs
             [Input_text " Buy milk "; Select_priority "high";
              Pick_date "2024-01-01"; Click_add; Change_todo 0]
             (mkPage first_visit (mkForm "" "low" "") []) in
  let s := controller p in
  (∀ k l, todoList s !! k = Some l →
     ∃ t, heap s !! l = Some t ∧
          todoListElement (trace s) ≫= (.!! k)
            = Some (createToDoElement t (completed t))) ∧
  (∀ k l, completedList s !! k = Some l →
     ∃ t, heap s !! l = Some t ∧
          completedListElement (trace s) ≫= (.!! k)
            = Some (createToDoElement t (completed t))) ∧
  (∀ k row, todoListElement (trace s) ≫= (.!! k) = Some row →
     is_Some (todoList s !! k)) ∧
  (∀ k row, completedListElement (trace s) ≫= (.!! k) = Some row →
     is_Some (completedList s !! k)).
Proof.
  apply (rows_mirror_arrays SrcJs).
  repeat apply on_screen_event. apply (on_screen_loaded SrcJs None).
  reflexivity.
Defined.

(** ** A change on a checkbox *)

Lemma filter_delete {A} (P : A → Prop) `{∀ x, Decision (P x)}
    (ls : list A) k l :
  NoDup ls → ls !! k = Some l → (∀ y, y ∈ ls → P y → y = l) → P l →
  filter (λ y, ¬ P y) ls = delete k ls.
Proof.
  intros Hnd. revert k. induction Hnd as [|x ls Hx Hnd IH]; intros k Hk Hu HP.
  - done.
  - destruct k as [|k]; simpl in *.
    + injection Hk as ->. rewrite filter_cons_False by tauto.
      apply filter_all, Forall_forall. intros y Hy HPy.
      assert (y = l) as -> by (apply Hu; [by right|done]). done.
    + assert (x ≠ l) as Hne.
      { intros ->. apply Hx. by eapply list_elem_of_lookup_2. }
      rewrite filter_cons_True.
      * f_equal. apply IH; [done| |done]. intros y Hy. apply Hu. by right.
      * intros HPx. apply Hne, Hu; [by left|done].
Qed.

Lemma lookup_values_allocated h ls k l :
  Forall (λ l, is_Some (h !! l)) ls → ls !! k = Some l →
  values h ls !! k = h !! l.
Proof.
  unfold values. intros Hf. revert k.
  induction Hf as [|x ls [t Hx] _ IH]; intros k Hk; [done|].
  simpl. rewrite Hx. simpl.
  destruct k as [|k]; simpl in *; [by injection Hk as <-|by apply IH].
Qed.

Lemma consistent_allocated s :
  consistent s →
  Forall (λ l, is_Some (heap s !! l)) (todoList s ++ completedList s).
Proof.
  intros [Ha Hc]. apply Forall_app. split.
  - eapply Forall_impl; [exact Ha|]. simpl. intros l Hl.
    by destruct (heap s !! l); [eexists|].
  - eapply Forall_impl; [exact Hc|]. simpl. intros l Hl.
    by destruct (heap s !! l); [eexists|].
Qed.

(** With distinct ids among the items, an id names one entry of the two
    arrays, and no entry is repeated. *)
Lemma distinct_ids_entry s i a b x y :
  consistent s → NoDup (id <$> items s) →
  (todoList s ++ completedList s) !! a = Some x →
  (todoList s ++ completedList s) !! b = Some y →
  has_id (heap s) i x → has_id (heap s) i y → a = b.
Proof.
  intros Hs Hnd Ha Hb Hx Hy. apply consistent_allocated in Hs.
  unfold has_id in *.
  rewrite <-(lookup_values_allocated _ _ _ _ Hs Ha) in Hx.
  rewrite <-(lookup_values_allocated _ _ _ _ Hs Hb) in Hy.
  rewrite <-list_lookup_fmap in Hx, Hy. by eapply NoDup_lookup.
Qed.

Lemma distinct_ids_NoDup s :
  consistent s → NoDup (id <$> items s) →
  NoDup (todoList s ++ completedList s).
Proof.
  intros Hs Hnd. apply NoDup_alt. intros a b x Ha Hb.
  pose proof (consistent_allocated s Hs) as Hall.
  rewrite Forall_lookup in Hall. destruct (Hall _ _ Ha) as [t Ht].
  apply (distinct_ids_entry s (id t) a b x x); try done;
    unfold has_id; by rewrite Ht.
Qed.

Section Change.
Context `{Platform} `{Strings}.

(** In a state with distinct ids, [find] by the id of an entry gives the
    entry. *)
Lemma find_entry s ls k l t :
  consistent s → NoDup (id <$> items s) →
  ls = todoList s ∨ ls = completedList s →
  ls !! k = Some l → heap s !! l = Some t →
  find (has_id (heap s) (id t)) ls = Some l ∧
  (∀ y, y ∈ ls → has_id (heap s) (id t) y → y = l).
Proof.
  intros Hs Hnd Hls Hk Ht.
  assert (has_id (heap s) (id t) l) as Hid by (unfold has_id; by rewrite Ht).
  assert (∃ a, ∀ j y, ls !! j = Some y →
            (todoList s ++ completedList s) !! (a + j)%nat = Some y)
    as [a Ha].
  { destruct Hls as [->| ->].
    - exists 0%nat. intros j y Hj. by apply lookup_app_l_Some.
    - exists (length (todoList s)). intros j y Hj.
      by rewrite lookup_app_r, Nat.add_sub' by lia. }
  assert (∀ y, y ∈ ls → has_id (heap s) (id t) y → y = l) as Hu.
  { intros y [j Hj]%list_elem_of_lookup_1 Hy.
    assert ((a + j)%nat = (a + k)%nat) as Hjk;
      [|assert (j = k) by lia; congruence].
    apply (distinct_ids_entry s (id t) _ _ y l); auto. }
  split; [|done].
  destruct (find _ _) as [y|] eqn:Hf.
  - apply find_Some in Hf as [Hy Hy']. f_equal. by apply Hu.
  - apply find_None in Hf. destruct Hf. apply Exists_exists.
    exists l. split; [by eapply list_elem_of_lookup_2|done].
Qed.

(** With distinct ids, an id of the completed array is not in the active
    one. *)
Lemma find_other s k l t :
  consistent s → NoDup (id <$> items s) →
  completedList s !! k = Some l → heap s !! l = Some t →
  find (has_id (heap s) (id t)) (todoList s) = None.
Proof.
  intros Hs Hnd Hk Ht.
  assert (has_id (heap s) (id t) l) as Hid by (unfold has_id; by rewrite Ht).
  apply find_None. intros (y & Hy & Hy')%Exists_exists.
  apply list_elem_of_lookup_1 in Hy as [j Hj].
  assert (j = (length (todoList s) + k)%nat) as ->.
  { apply (distinct_ids_entry s (id t) _ _ y l); try done.
    - by apply lookup_app_l_Some.
    - by rewrite lookup_app_r, Nat.add_sub' by lia. }
  apply lookup_lt_Some in Hj. lia.
Qed.

End Change.

(** X9 -- a change on a checkbox of the active list.  On a page a user can
    be on (either copy) where the ids of the items are distinct, the
    "change" event on the checkbox of row [k] of the active list takes the
    item at position [k] out of the active array, the other items keeping
    their order, puts it at the tail of the completed array and sets its
    [completed]. *)
Theorem change_todo_moves `{Platform} `{Strings} c p k l :
  on_screen c p →
  NoDup (id <$> items (controller p)) →
  todoList (controller p) !! k = Some l →
  let s := controller p in
  let s' := controller (on c (Change_todo k) p).2 in
  todoList s' = delete k (todoList s) ∧
  completedList s' = completedList s ++ [l] ∧
  completed <$> heap s' !! l = Some true.
Proof.
  intros Hp Hnd Hk. simpl.
  destruct (row_of_todo c p k l Hp Hk) as (t & Ht & _ & Hrow).
  apply on_screen_reachable in Hp.
  pose proof (reachable_consistent _ _ Hp) as Hs.
  pose proof (distinct_ids_NoDup _ Hs Hnd) as Hnd'.
  apply NoDup_app in Hnd' as (Hnda & _ & _).
  destruct (find_entry _ (todoList (controller p)) k l t Hs Hnd)
    as [Hf Hu]; [by left|done..|].
  assert (has_id (heap (controller p)) (id t) l) as Hid
    by (unfold has_id; by rewrite Ht).
  rewrite Hrow, fire_change_createToDoElement.
  destruct (exec_toggleCompleted_active _ _ _ Hf) as (Hh' & Ht' & Hc').
  unfold exec in *.
  destruct (toggleCompleted (id t) (controller p)) as [r s']. simpl in *.
  rewrite Hh', Ht', Hc'. split_and!; [|done|].
  - by apply (filter_delete (has_id (heap (controller p)) (id t)) _ k l).
  - rewrite lookup_mark_all_in, Ht; [done|].
    apply elem_of_app. right. by left.
Qed.

Lemma change_todo_moves_witness :
  let p := use DocumentedCopy
             [Input_text "Buy milk"; Pick_date "2024-01-01"; Click_add;
              Input_text "Walk dog"; Pick_date "2024-01-02"; Keypress "Enter"]
             (mkPage first_visit (mkForm "" "low" "") []) in
  let s := controller p in
  let s' := controller (on DocumentedCopy (Change_todo 1) p).2 in
  todoList s' = delete 1%nat (todoList s) ∧
  completedList s' = completedList s ++ [1%nat] ∧
  completed <$> heap s' !! 1%nat = Some true.
Proof.
  apply (change_todo_moves DocumentedCopy).
  - repeat apply on_screen_event. apply (on_screen_loaded _ None).
    reflexivity.
  - by_evaluation.
  - reflexivity.
Defined.

(** X10 -- a change on a checkbox of the completed list.  On a page a user
    can be on (either copy) where the ids of the items are distinct, the
    "change" event on the checkbox of row [k] of the completed list takes
    the item at position [k] out of the completed array, the other items
    keeping their order, puts it at the tail of the active array and clears
    its [completed]. *)
Theorem change_completed_moves `{Platform} `{Strings} c p k l :
  on_screen c p →
  NoDup (id <$> items (controller p)) →
  completedList (controller p) !! k = Some l →
  let s := controller p in
  let s' := controller (on c (Change_completed k) p).2 in
  completedList s' = delete k (completedList s) ∧
  todoList s' = todoList s ++ [l] ∧
  completed <$> heap s' !! l = Some false.
Proof.
  intros Hp Hnd Hk. simpl.
  destruct (row_of_completed c p k l Hp Hk) as (t & Ht & _ & Hrow).
  apply on_screen_reachable in Hp.
  pose proof (reachable_consistent _ _ Hp) as Hs.
  pose proof (distinct_ids_NoDup _ Hs Hnd) as Hnd'.
  apply NoDup_app in Hnd' as (_ & _ & Hndc).
  destruct (find_entry _ (completedList (controller p)) k l t Hs Hnd)
    as [Hg Hu]; [by right|done..|].
  pose proof (find_other _ k l t Hs Hnd Hk Ht) as Hf.
  assert (has_id (heap (controller p)) (id t) l) as Hid
    by (unfold has_id; by rewrite Ht).
  rewrite Hrow, fire_change_createToDoElement.
  destruct (exec_toggleCompleted_done _ _ _ Hf Hg) as (Hh' & Ht' & Hc').
  unfold exec in *.
  destruct (toggleCompleted (id t) (controller p)) as [r s']. simpl in *.
  rewrite Hh', Ht', Hc'. split_and!; [|done|].
  - by apply (filter_delete (has_id (heap (controller p)) (id t)) _ k l).
  - rewrite lookup_mark_all_in, Ht; [done|].
    apply elem_of_app. right. by left.
Qed.

Lemma change_completed_moves_witness :
  let p := use DocumentedCopy
             [Input_text "Buy milk"; Pick_date "2024-01-01"; Click_add;
              Input_text "Walk dog"; Pick_date "2024-01-02"; Keypress "Enter";
              Change_todo 0; Change_todo 0]
             (mkPage first_visit (mkForm "" "low" "") []) in
  let s := controller p in
  let s' := controller (on DocumentedCopy (Change_completed 0) p).2 in
  completedList s' = delete 0%nat (completedList s) ∧
  todoList s' = todoList s ++ [0%nat] ∧
  completed <$> heap s' !! 0%nat = Some false.
Proof.
  apply (change_completed_moves DocumentedCopy).
  - repeat apply on_screen_event. apply (on_screen_loaded _ None).
    reflexivity.
  - by_evaluation.
  - reflexivity.
Defined.

(** ** Submitting the form *)

Lemma filled_set_completed b t : filled t → filled (set_completed b t).
Proof. done. Qed.

Lemma filled_mark_all b ls h :
  Forall filled h → Forall filled (mark_all b ls h).
Proof.
  rewrite !Forall_lookup. intros Hh l t' Hl.
  destruct (decide (l ∈ ls)).
  - rewrite lookup_mark_all_in in Hl by done.
    destruct (h !! l) as [t|] eqn:E; [|done]. injection Hl as <-.
    apply filled_set_completed. by eapply Hh.
  - rewrite lookup_mark_all_out in Hl by done. by eapply Hh.
Qed.

Section Submit.
Context `{Platform} `{Strings}.

Lemma filled_toggleCompleted s i :
  Forall filled (heap s) → Forall filled (heap (exec (toggleCompleted i) s)).
Proof.
  intros Hs.
  destruct (find (has_id (heap s) i) (todoList s)) as [x|] eqn:Hf.
  { destruct (exec_toggleCompleted_active _ _ _ Hf) as (-> & _ & _).
    by apply filled_mark_all. }
  destruct (find (has_id (heap s) i) (completedList s)) as [x|] eqn:Hg.
  { destruct (exec_toggleCompleted_done _ _ _ Hf Hg) as (-> & _ & _).
    by apply filled_mark_all. }
  unfold exec. by rewrite (toggleCompleted_absent _ _ Hf Hg).
Qed.

Lemma filled_fire_change row s :
  Forall filled (heap s) → Forall filled (heap (fire_change row s).2).
Proof.
  intros Hs. unfold fire_change.
  destruct (change <$> head (children row)) as [[i|]|]; [|done..].
  by apply filled_toggleCompleted.
Qed.

Lemma filled_on c e p :
  Forall filled (heap (controller p)) →
  Forall filled (heap (controller (on c e p).2)).
Proof.
  intros Hp.
  assert (Forall filled
            (heap (controller (handleToDoInput c (addTodo c) p).2))) as Hs.
  { unfold handleToDoInput. case_decide as Hblank; [done|].
    case_decide as Htext; [|done].
    destruct (addTodo_eq c (controller p) (trim (todoInput (form p)))
                (prioritySelect (form p)) (dueDateInput (form p)))
      as [n ->].
    rewrite saveTodos_eq.
    assert (Forall filled
              (heap (controller p) ++
               [mkTodo n (trim (todoInput (form p))) false
                  (prioritySelect (form p)) (dueDateInput (form p))])).
    { apply Forall_app. split; [done|]. apply Forall_singleton.
      split; simpl; tauto. }
    by destruct (quota _). }
  destruct e as [v|v|v| |key|k|k]; simpl; try done.
  - by case_decide.
  - destruct (todoListElement _ ≫= _) as [row|]; [|done].
    pose proof (filled_fire_change row _ Hp).
    by destruct (fire_change row _).
  - destruct (completedListElement _ ≫= _) as [row|]; [|done].
    pose proof (filled_fire_change row _ Hp).
    by destruct (fire_change row _).
Qed.

End Submit.

(** X11 -- only filled items.  If every item a page holds has a text and a
    due date (as on a first visit, where there is none), so has every item
    after any series of events on the page: the listeners of the view let
    no item with an empty text (after trimming) or an empty due date reach
    [addTodo], and nothing edits the text or the date of an item. *)
Theorem use_keeps_filled `{Platform} `{Strings} c es p :
  Forall filled (heap (controller p)) →
  Forall filled (heap (controller (use c es p))).
Proof.
  revert p. induction es as [|e es IH]; intros p Hp; simpl; [done|].
  apply IH. by apply filled_on.
Qed.

Lemma use_keeps_filled_witness :
  Forall filled
    (heap (controller
       (use SrcJs
          [Input_text "   "; Pick_date "2024-01-01"; Click_add;
           Input_text " Buy milk "; Keypress "Enter"; Change_todo 0]
          (mkPage first_visit (mkForm "" "low" "") [])))).
Proof.
  apply (use_keeps_filled SrcJs). apply Forall_nil_2.
Defined.

(** X12 -- a submission that is not filled.  A click on the add button, or
    Enter in the text input, when the text is empty or blank (empty after
    trimming) or no due date is picked, shows the alert and does nothing
    else: the controller is not called (its arrays, the storage and the
    lists of the view are as they were) and the inputs keep their values. *)
Theorem submit_rejected `{Platform} `{Strings} c e p :
  submits e →
  trim (todoInput (form p)) = "" ∨ dueDateInput (form p) = "" →
  on c e p =
  (inr (), mkPage (controller p) (form p) (alerts p ++ [alert_text c])).
Proof.
  intros He Hblank. rewrite (on_submits c e p He).
  unfold handleToDoInput. by rewrite decide_True.
Qed.

Lemma submit_rejected_witness :
  let p := mkPage first_visit (mkForm "   " "low" "2024-01-01") [] in
  on SrcJs (Keypress "Enter") p =
  (inr (), mkPage (controller p) (form p) (alerts p ++ [alert_text SrcJs])).
Proof.
  apply (submit_rejected SrcJs); [by right|by left].
Defined.

(** X13 -- a submission that is filled.  On a page a user can be on, a click
    on the add button or Enter in the text input, with a text that is not
    blank and a due date, calls [addTodo] once with the trimmed text, the
    priority and the date: a new item, not completed, is at the tail of the
    active array and the active list shows the rows it showed (none, if the
    view had never filled it) with the row of the new item below; no alert
    is shown.  When the handler returns, the text and the date
    inputs are emptied (the priority stays) and the storage holds the
    arrays; when it throws (the storage refused the write) the inputs keep
    their values, though the item is added. *)
Theorem submit_adds `{Platform} `{Strings} c e p :
  on_screen c p → submits e →
  trim (todoInput (form p)) ≠ "" → dueDateInput (form p) ≠ "" →
  let s := controller p in
  let p' := (on c e p).2 in
  let s' := controller p' in
  ∃ n, let t := mkTodo n (trim (todoInput (form p))) false
                  (prioritySelect (form p)) (dueDateInput (form p)) in
    heap s' = heap s ++ [t] ∧
    todoList s' = todoList s ++ [length (heap s)] ∧
    completedList s' = completedList s ∧
    todoListElement (trace s') =
      Some (default [] (todoListElement (trace s))
            ++ [createToDoElement t false]) ∧
    alerts p' = alerts p ∧
    match (on c e p).1 with
    | inr _ =>
        form p' = mkForm "" (prioritySelect (form p)) "" ∧
        storage s' = Some (saved_text s')
    | inl err =>
        err = QuotaExceededError ∧ form p' = form p ∧ storage s' = storage s
    end.
Proof.
  intros Hp He Htext Hdate. simpl.
  apply on_screen_reachable in Hp.
  destruct (reachable_consistent _ _ Hp) as [Ha _].
  destruct (in_view_reachable _ _ Hp) as [Hv _].
  rewrite (on_submits c e p He). unfold handleToDoInput.
  rewrite decide_False by tauto. rewrite decide_True by done.
  destruct (addTodo_eq c (controller p) (trim (todoInput (form p)))
              (prioritySelect (form p)) (dueDateInput (form p))) as [n ->].
  exists n. rewrite saveTodos_eq. simpl.
  set (t := mkTodo n _ _ _ _).
  assert (values (heap (controller p) ++ [t])
            (todoList (controller p) ++ [length (heap (controller p))])
          = values (heap (controller p)) (todoList (controller p)) ++ [t])
    as Hval.
  { rewrite values_app, (values_alloc false) by done. f_equal.
    unfold values. simpl. by rewrite lookup_app_r, Nat.sub_diag. }
  assert (default [] (todoListElement (trace (controller p)))
          = displayTodos (values (heap (controller p))
                            (todoList (controller p)))) as Hrows.
  { unfold todoListElement.
    destruct (shown_todos _) as [ts|]; simpl; [by subst|by rewrite Hv]. }
  assert (∀ tr v, todoListElement
            ((tr ++ [DisplayTodos
                       (values (heap (controller p) ++ [t])
                          (todoList (controller p)
                           ++ [length (heap (controller p))]))]) ++ [SetItem v])
          = Some (default [] (todoListElement (trace (controller p)))
                  ++ [createToDoElement t false])) as Hnew.
  { intros tr v. unfold todoListElement at 1.
    rewrite !shown_todos_app. simpl. rewrite Hval, Hrows.
    unfold displayTodos. by rewrite fmap_app. }
  destruct (quota _) eqn:Hq; simpl; rewrite Hnew; split_and!; done.
Qed.

Lemma submit_adds_witness :
  let p := mkPage first_visit (mkForm " Buy milk " "high" "2024-01-01") [] in
  let s := controller p in
  let p' := (on SrcJs Click_add p).2 in
  let s' := controller p' in
  ∃ n, let t := mkTodo n (trim (todoInput (form p))) false
                  (prioritySelect (form p)) (dueDateInput (form p)) in
    heap s' = heap s ++ [t] ∧
    todoList s' = todoList s ++ [length (heap s)] ∧
    completedList s' = completedList s ∧
    todoListElement (trace s') =
      Some (default [] (todoListElement (trace s))
            ++ [createToDoElement t false]) ∧
    alerts p' = alerts p ∧
    match (on SrcJs Click_add p).1 with
    | inr _ =>
        form p' = mkForm "" (prioritySelect (form p)) "" ∧
        storage s' = Some (saved_text s')
    | inl err =>
        err = QuotaExceededError ∧ form p' = form p ∧ storage s' = storage s
    end.
Proof.
  apply (submit_adds SrcJs Click_add).
  - apply (on_screen_loaded SrcJs None). reflexivity.
  - by left.
  - by vm_compute.
  - done.
Defined.


(** ** No item twice *)

Section Once.
Context `{Platform}.

Lemma once_toggleCompleted s i :
  consistent s → NoDup (todoList s ++ completedList s) →
  NoDup (todoList (exec (toggleCompleted i) s)
         ++ completedList (exec (toggleCompleted i) s)).
Proof.
  intros Hs Hnd. apply NoDup_app in Hnd as (Hnda & Hdisj & Hndc).
  destruct (find (has_id (heap s) i) (todoList s)) as [l|] eqn:Hf.
  - destruct (exec_toggleCompleted_active _ _ _ Hf) as (_ & -> & ->).
    apply find_Some in Hf as [Hl Hid].
    apply NoDup_app. split_and!.
    + by apply NoDup_filter.
    + intros x [Hx Hin]%list_elem_of_filter.
      rewrite elem_of_app, list_elem_of_singleton.
      intros [Hc| ->]; [by eapply Hdisj|done].
    + apply NoDup_app. split_and!; [done| |apply NoDup_singleton].
      intros x Hx ->%list_elem_of_singleton. by eapply Hdisj.
  - destruct (find (has_id (heap s) i) (completedList s)) as [l|] eqn:Hg.
    + destruct (exec_toggleCompleted_done _ _ _ Hf Hg) as (_ & -> & ->).
      apply find_Some in Hg as [Hl Hid].
      apply NoDup_app. split_and!.
      * apply NoDup_app. split_and!; [done| |apply NoDup_singleton].
        intros x Hx ->%list_elem_of_singleton. by eapply Hdisj.
      * intros x [Hx| ->%list_elem_of_singleton]%elem_of_app
          [Hn Hin]%list_elem_of_filter; [by eapply Hdisj|done].
      * by apply NoDup_filter.
    + unfold exec. rewrite (toggleCompleted_absent _ _ Hf Hg).
      apply NoDup_app. done.
Qed.

Lemma once_addTodo c s text priority dueDate :
  consistent s → NoDup (todoList s ++ completedList s) →
  NoDup (todoList (exec (addTodo c text priority dueDate) s)
         ++ completedList (exec (addTodo c text priority dueDate) s)).
Proof.
  intros Hs Hnd. pose proof (consistent_allocated s Hs) as Hall.
  unfold exec. destruct (addTodo_eq c s text priority dueDate) as [n ->].
  simpl. rewrite <-(assoc_L (++)), (comm (++) [_]), (assoc_L (++)).
  apply NoDup_app. split_and!; [done| |apply NoDup_singleton].
  intros x Hx ->%list_elem_of_singleton.
  rewrite Forall_forall in Hall. apply Hall in Hx as [t Ht].
  apply lookup_lt_Some in Ht. lia.
Qed.

Lemma once_constructor stored s :
  constructor (page stored) = (inr (), s) →
  NoDup (todoList s ++ completedList s).
Proof.
  rewrite constructor_eq.
  destruct stored as [str|]; [|rewrite loadTodos_absent by done].
  - destruct (decide (str = "")) as [->|Hne];
      [rewrite loadTodos_empty by done; intros [= <-]; apply NoDup_nil_2|].
    destruct (JSON_parse str) as [ts|] eqn:Hp.
    + rewrite (loadTodos_parsed _ str ts) by done. simpl.
      intros [= <-]. simpl. apply NoDup_app. split_and!.
      * apply NoDup_filter, NoDup_seq.
      * intros x [Hx _]%list_elem_of_filter [Hx' _]%list_elem_of_filter.
        done.
      * apply NoDup_filter, NoDup_seq.
    + by rewrite (loadTodos_malformed _ str).
  - intros [= <-]. apply NoDup_nil_2.
Qed.

End Once.

(** X14 -- no item twice.  In every state the controller can be in (either
    copy, whatever was stored), no object is held twice: none is in both
    arrays, none is twice in one. *)
Theorem no_item_twice `{Platform} c s :
  reachable c s → NoDup (todoList s ++ completedList s).
Proof.
  induction 1 as [stored s Hc|g s Hr IH].
  - by eapply once_constructor.
  - pose proof (reachable_consistent _ _ Hr) as Hs.
    destruct g; simpl; [by apply once_addTodo|by apply once_toggleCompleted].
Qed.

Lemma no_item_twice_witness :
  let s := run SrcJs (three_items ++ [Toggle 2]) first_visit in
  NoDup (todoList s ++ completedList s).
Proof.
  apply (no_item_twice SrcJs), reachable_run, reachable_first_visit.
Defined.
